(** * letsgo/collections: the Set container

    A shallow embedding of [collections.Set] (Go, [map[T]struct{}] with
    methods) and the properties its specification states about it.

    A Go map value is a reference: [Add] and [Remove] mutate the map the
    receiver points to, every copy of the receiver sees the mutation, and the
    zero value of the type is the nil map.  The embedding therefore keeps an
    explicit store of map objects and passes references around, so that
    "the same instance", "a fresh instance" and "unmodified operand" are
    statements about the store.

    The package holds the same container twice, as [Set] (exported) and as
    [set]; the two differ in the type name only and are embedded once.

    The container is embedded for two kinds of key type.  Section
    [Collections] takes a key type on which [==] is an equality (integers,
    strings, ...).  Module [AnyKey] takes any key type, with values that are
    not equal to themselves (the NaNs of the floating-point types), on which
    some operations behave differently. *)

From stdpp Require Import gmap gmultiset list.

#[local] Set Warnings "-clear-no-such-hyp".

(** ** Store *)

(** Addresses of map objects. *)
Abbreviation loc := positive.

(** A value of type [Set[T]]: the nil map, or a reference to a map object. *)
Inductive SetT : Type :=
  | NilSet
  | SetAt (l : loc).

Global Instance SetT_eq_dec : EqDecision SetT.
Proof. solve_decision. Defined.

(** Control signal of a loop body: fall through to the next iteration with
    the loop-carried variables, or [return r] out of the enclosing function. *)
Inductive ctl (A R : Type) : Type :=
  | Next (a : A)
  | Return (r : R).
Global Arguments Next {A R} a.
Global Arguments Return {A R} r.

Section Collections.
(** [T comparable]: the element type.  Its [==] is taken to be a decidable
    equality, and [Countable] stands for "hashable".  Key types whose [==] is
    not an equality (floating-point keys, where NaN differs from itself) are
    the subject of module [AnyKey].  [Inhabited] gives the zero value of
    [T], with which [make([]T, n)] fills a slice. *)
Context {T : Type} {T_eq : EqDecision T} {T_hash : Countable T}
        {T_zero : Inhabited T}.

(** The contents of a [map[T]struct{}] is its key set: the values carry no
    information. *)
Abbreviation heap := (gmap loc (gset T)).

(** A slice [[]T]: [None] is the nil slice. *)
Definition slice : Type := option (list T).

Definition slice_is_nil (sl : slice) : bool :=
  match sl with None => true | Some _ => false end.

Definition slice_items (sl : slice) : list T := default [] sl.

(** [len(sl)] *)
Definition slice_len (sl : slice) : nat := length (slice_items sl).

(** Go iterates over a map in an order that the language leaves open.  The
    order is a parameter of the model: any function that lists the keys of
    a map, each once.  Every statement below holds for all such functions;
    none compares two iterations over the same map. *)
Class RangeOrder : Type := {
  range_keys : gset T → list T;
  range_keys_perm : ∀ m, range_keys m ≡ₚ elements m
}.

(** One admissible order. *)
Definition elements_order : RangeOrder :=
  {| range_keys := elements; range_keys_perm := λ m, reflexivity _ |}.

Context {RO : RangeOrder}.

(** ** Computations

    A computation reads and writes the store.  [None] is a computation
    that does not return: a run-time panic (or a reference to no object,
    which a Go program cannot build). *)
Definition M (A : Type) : Type := heap → option (A * heap).

Definition ret {A} (a : A) : M A := λ h, Some (a, h).

Definition bind {A B} (m : M A) (k : A → M B) : M B :=
  λ h, match m h with
       | Some (a, h') => k a h'
       | None => None
       end.

Definition panic {A} : M A := λ _, None.

Local Notation "x <- m ; k" := (bind m (λ x, k))
  (at level 20, m at level 100, k at level 200, only parsing).
Local Notation "' x <- m ; k" := (bind m (λ x, k))
  (at level 20, x pattern, m at level 100, k at level 200, only parsing).

(** *** Map primitives *)

(** The key set behind a reference; the nil map reads as the empty map. *)
Definition load (s : SetT) : M (gset T) :=
  λ h, match s with
       | NilSet => Some (∅, h)
       | SetAt l => match h !! l with
                    | Some m => Some (m, h)
                    | None => None
                    end
       end.

Definition store (l : loc) (m : gset T) : M unit :=
  λ h, Some ((), <[l := m]> h).

(** [_, ok := s[k]] *)
Definition map_index (s : SetT) (k : T) : M bool :=
  m <- load s; ret (bool_decide (k ∈ m)).

(** [s[k] = struct{}{}]; assignment to an entry of the nil map panics. *)
Definition map_assign (s : SetT) (k : T) : M unit :=
  match s with
  | NilSet => panic
  | SetAt l => m <- load s; store l ({[k]} ∪ m)
  end.

(** [delete(s, k)]; a no-op on the nil map and on an absent key. *)
Definition map_delete (s : SetT) (k : T) : M unit :=
  match s with
  | NilSet => ret ()
  | SetAt l => m <- load s; store l (m ∖ {[k]})
  end.

(** [len(s)] *)
Definition map_len (s : SetT) : M nat :=
  m <- load s; ret (size m).

(** [make(Set[T], n)] and [Set[T]{}]: a new, empty map object. *)
Definition map_make : M SetT :=
  λ h, let l := fresh (dom h) in Some (SetAt l, <[l := ∅]> h).

(** [s == nil] *)
Definition is_nil (s : SetT) : bool :=
  match s with NilSet => true | SetAt _ => false end.

(** *** Slice primitives *)

(** [make([]T, n)] *)
Definition slice_make (n : nat) : list T := replicate n inhabitant.

(** [sl[i] = v]; an index out of range panics. *)
Definition slice_assign (sl : list T) (i : nat) (v : T) : M (list T) :=
  if decide (i < length sl) then ret (<[i := v]> sl) else panic.

(** *** Loops *)

(** [for _, v := range vs { body }], with loop-carried variables [a]. *)
Fixpoint for_range {A R} (body : T → A → M (ctl A R)) (vs : list T) (a : A)
    : M (ctl A R) :=
  match vs with
  | [] => ret (Next a)
  | v :: vs' =>
      c <- body v a;
      match c with
      | Next a' => for_range body vs' a'
      | Return r => ret (Return r)
      end
  end.

(** [for k := range s { body }].  The keys are those of the map when the
    loop starts, in the order [range_keys] gives; an entry that was deleted
    before the loop reached it is not produced. *)
Definition for_map {A R} (s : SetT) (body : T → A → M (ctl A R)) (a : A)
    : M (ctl A R) :=
  m <- load s;
  for_range (λ k a, live <- map_index s k;
                    if live then body k a else ret (Next a))
            (range_keys m) a.

(** What follows a loop that has no [return] in its body. *)
Definition fall_through {A} (c : ctl A Empty_set) : A :=
  match c with
  | Next a => a
  | Return r => match r with end
  end.

(** ** The container *)

(** The three failures of the API, after the message each carries. *)
Inductive error : Type :=
  | ErrNotFound (element : T)   (* "element %v is not in the Set" *)
  | ErrEmptyInput               (* "elements array is nil or empty" *)
  | ErrNotAllPresent.           (* "not all elements are in the Set" *)

Definition NewSet : M SetT := map_make.

Definition Add (s : SetT) (element : T) : M SetT :=
  _ <- map_assign s element; ret s.

Definition AddAll (s : SetT) (elements : slice) : M SetT :=
  _ <- for_range (R := Empty_set)
         (λ v _, _ <- Add s v; ret (Next ())) (slice_items elements) ();
  ret s.

Definition Has (s : SetT) (element : T) : M bool :=
  ok <- map_index s element;
  if ok then ret true else ret false.

Definition HasAllOf (s : SetT) (elements : slice) : M bool :=
  c <- for_range
        (λ v _, ok <- map_index s v;
                if negb ok then ret (Return false) else ret (Next ()))
        (slice_items elements) ();
  match c with
  | Return r => ret r
  | Next _ => ret true
  end.

Definition Remove (s : SetT) (element : T) : M (option error) :=
  has <- Has s element;
  if negb has then ret (Some (ErrNotFound element))
  else _ <- map_delete s element; ret None.

Definition MustRemove (s : SetT) (element : T) : M SetT :=
  err <- Remove s element;
  match err with
  | Some _ => panic
  | None => ret s
  end.

Definition RemoveAll (s : SetT) (elements : slice) : M (option error) :=
  if slice_is_nil elements || (slice_len elements =? 0)
  then ret (Some ErrEmptyInput)
  else
    all <- HasAllOf s elements;
    if negb all then ret (Some ErrNotAllPresent)
    else
      _ <- for_range (R := Empty_set)
             (λ v _, _ <- map_delete s v; ret (Next ()))
             (slice_items elements) ();
      ret None.

Definition MustRemoveAll (s : SetT) (elements : slice) : M SetT :=
  err <- RemoveAll s elements;
  match err with
  | Some _ => panic
  | None => ret s
  end.

Definition Clear (s : SetT) : M SetT :=
  _ <- for_map (R := Empty_set)
         s (λ k _, _ <- map_delete s k; ret (Next ())) ();
  ret s.

Definition Size (s : SetT) : M nat := map_len s.

Definition Copy (s : SetT) : M SetT :=
  newSet <- map_make;
  _ <- for_map (R := Empty_set)
         s (λ key _, _ <- map_assign newSet key; ret (Next ())) ();
  ret newSet.

Definition ToSlice (s : SetT) : M slice :=
  n <- map_len s;
  c <- for_map (R := Empty_set)
         s (λ key '(slice, i),
              slice' <- slice_assign slice i key;
              ret (Next (slice', S i)))
         (slice_make n, 0);
  ret (Some (fall_through c).1).

(** [x == nil || x.Size() == 0]; [||] does not evaluate its right operand
    when the left one is true. *)
Definition nil_or_empty (x : SetT) : M bool :=
  if is_nil x then ret true
  else n <- Size x; ret (n =? 0).

Definition IsSuperSetOf (s other : SetT) : M bool :=
  e <- nil_or_empty other;
  if e then ret true
  else
    c <- for_map other
          (λ key _, has <- Has s key;
                    if negb has then ret (Return false) else ret (Next ()))
          ();
    match c with
    | Return r => ret r
    | Next _ => ret true
    end.

Definition IsSubSetOf (s other : SetT) : M bool :=
  e <- nil_or_empty s;
  if e then ret true
  else
    c <- for_map s
          (λ key _, has <- Has other key;
                    if negb has then ret (Return false) else ret (Next ()))
          ();
    match c with
    | Return r => ret r
    | Next _ => ret true
    end.

Definition Diff (s other : SetT) : M SetT :=
  _ <- for_map (R := Empty_set)
         other (λ key _, _ <- Remove s key; ret (Next ())) ();
  ret s.

Definition NewDiff (s other : SetT) : M SetT :=
  newSet <- NewSet;
  _ <- for_map (R := Empty_set)
         s (λ key _, has <- Has other key;
                     if negb has then _ <- Add newSet key; ret (Next ())
                     else ret (Next ()))
         ();
  ret newSet.

Definition Union (s other : SetT) : M SetT :=
  e <- nil_or_empty other;
  if e then ret s
  else
    _ <- for_map (R := Empty_set)
           other (λ key _, _ <- Add s key; ret (Next ())) ();
    ret s.

Definition NewUnion (s other : SetT) : M SetT :=
  newSet <- Copy s;
  Union newSet other.

Definition Intersect (s other : SetT) : M SetT :=
  e <- nil_or_empty other;
  if e then ret s
  else
    _ <- for_map (R := Empty_set)
           s (λ key _, has <- Has other key;
                       if negb has then _ <- Remove s key; ret (Next ())
                       else ret (Next ()))
           ();
    ret s.

Definition NewIntersect (s other : SetT) : M SetT :=
  newSet <- Copy s;
  Intersect newSet other.

End Collections.

(** ** Reading the store in statements *)

Section Observations.
Context {T : Type} {T_eq : EqDecision T} {T_hash : Countable T}.

(** The key set a set value denotes in store [h]; nothing if the reference
    points to no object of [h]. *)
Definition deref (h : gmap loc (gset T)) (s : SetT) : option (gset T) :=
  match s with
  | NilSet => Some ∅
  | SetAt l => h !! l
  end.

(** The store in which the object behind [s] holds [m]. *)
Definition update (s : SetT) (m : gset T) (h : gmap loc (gset T))
    : gmap loc (gset T) :=
  match s with
  | NilSet => h
  | SetAt l => <[l := m]> h
  end.

End Observations.

(** ** Keys that are not equal to themselves

    [T comparable] admits key types with values on which [==] is false of
    the value itself (the NaNs of [float32] and [float64]).  A map never
    finds such a key again: every assignment of it makes a new entry, and
    no lookup and no [delete] matches it.  The module embeds the container a
    second time for such key types.  A key is either a value that is equal
    to itself ([inl], with [==] the equality of [P]; values that [==]
    identifies, such as the two zeros, are one value of [P]) or a value that
    is not ([inr]).  A map holds a set of the former and a multiset of the
    latter.  With [N] empty this is the embedding above. *)

Module AnyKey.
Section Collections.
Context {P N : Type} {P_eq : EqDecision P} {P_hash : Countable P}
        {N_eq : EqDecision N} {N_hash : Countable N} {P_zero : Inhabited P}.

Definition key : Type := P + N.

Record entries : Type := Entries { keys : gset P; loose : gmultiset N }.

Abbreviation heap := (gmap loc entries).

(** [k == k] *)
Definition self_equal (k : key) : bool :=
  match k with inl _ => true | inr _ => false end.

(** The entries of a map, as keys. *)
Definition listing (c : entries) : list key :=
  (inl <$> elements (keys c)) ++ (inr <$> elements (loose c)).

(** Whether a lookup of [k] finds an entry: a key that is not equal to
    itself is never found. *)
Definition has (c : entries) (k : key) : bool :=
  match k with
  | inl p => bool_decide (p ∈ keys c)
  | inr _ => false
  end.

(** The map after an assignment to [k]: a key that is not equal to itself
    matches no entry and is entered anew. *)
Definition put (c : entries) (k : key) : entries :=
  match k with
  | inl p => Entries ({[p]} ∪ keys c) (loose c)
  | inr n => Entries (keys c) ({[+ n +]} ⊎ loose c)
  end.

(** The map after [delete] of [k]: a key that is not equal to itself matches
    no entry. *)
Definition del (c : entries) (k : key) : entries :=
  match k with
  | inl p => Entries (keys c ∖ {[p]}) (loose c)
  | inr _ => c
  end.

(** The number of entries. *)
Definition len (c : entries) : nat := size (keys c) + size (loose c).

(** Whether the entry [k], seen when a loop over the map started, is still
    in it: an entry whose key is not equal to itself cannot have been
    deleted. *)
Definition live (c : entries) (k : key) : bool :=
  match k with
  | inl p => bool_decide (p ∈ keys c)
  | inr _ => true
  end.

(** The order of iteration: any function that lists the entries of a map,
    each once. *)
Class RangeOrder : Type := {
  range_keys : entries → list key;
  range_keys_perm : ∀ c, range_keys c ≡ₚ listing c
}.

Definition listing_order : RangeOrder :=
  {| range_keys := listing; range_keys_perm := λ c, reflexivity _ |}.

Context {RO : RangeOrder}.

Definition M (A : Type) : Type := heap → option (A * heap).

Definition ret {A} (a : A) : M A := λ h, Some (a, h).

Definition bind {A B} (m : M A) (k : A → M B) : M B :=
  λ h, match m h with
       | Some (a, h') => k a h'
       | None => None
       end.

Definition panic {A} : M A := λ _, None.

Local Notation "x <- m ; k" := (bind m (λ x, k))
  (at level 20, m at level 100, k at level 200, only parsing).
Local Notation "' x <- m ; k" := (bind m (λ x, k))
  (at level 20, x pattern, m at level 100, k at level 200, only parsing).

(** *** Map primitives *)

Definition load (s : SetT) : M entries :=
  λ h, match s with
       | NilSet => Some (Entries ∅ ∅, h)
       | SetAt l => match h !! l with
                    | Some c => Some (c, h)
                    | None => None
                    end
       end.

Definition store (l : loc) (c : entries) : M unit :=
  λ h, Some ((), <[l := c]> h).

(** [_, ok := s[k]] *)
Definition map_index (s : SetT) (k : key) : M bool :=
  c <- load s; ret (has c k).

(** [s[k] = struct{}{}]; assignment to an entry of the nil map panics. *)
Definition map_assign (s : SetT) (k : key) : M unit :=
  match s with
  | NilSet => panic
  | SetAt l => c <- load s; store l (put c k)
  end.

(** [delete(s, k)]; a no-op on the nil map. *)
Definition map_delete (s : SetT) (k : key) : M unit :=
  match s with
  | NilSet => ret ()
  | SetAt l => c <- load s; store l (del c k)
  end.

(** [len(s)] *)
Definition map_len (s : SetT) : M nat :=
  c <- load s; ret (len c).

(** [make(Set[T], n)] and [Set[T]{}] *)
Definition map_make : M SetT :=
  λ h, let l := fresh (dom h) in Some (SetAt l, <[l := Entries ∅ ∅]> h).

(** Whether the entry [k], seen when a loop over [s] started, is still in
    the map. *)
Definition map_live (s : SetT) (k : key) : M bool :=
  c <- load s; ret (live c k).

(** *** Slice primitives *)

(** [make([]T, n)]; the zero value of the key type is equal to itself. *)
Definition slice_make (n : nat) : list key := replicate n (inl inhabitant).

(** [sl[i] = v] *)
Definition slice_assign (sl : list key) (i : nat) (v : key) : M (list key) :=
  if decide (i < length sl) then ret (<[i := v]> sl) else panic.

(** *** Loops *)

Fixpoint for_range {A R} (body : key → A → M (ctl A R)) (vs : list key)
    (a : A) : M (ctl A R) :=
  match vs with
  | [] => ret (Next a)
  | v :: vs' =>
      c <- body v a;
      match c with
      | Next a' => for_range body vs' a'
      | Return r => ret (Return r)
      end
  end.

(** [for k := range s { body }].  The entries are those of the map when the
    loop starts; an entry deleted before the loop reached it is not
    produced, and an entry made during the loop is not produced either (Go
    leaves the latter open). *)
Definition for_map {A R} (s : SetT) (body : key → A → M (ctl A R)) (a : A)
    : M (ctl A R) :=
  c <- load s;
  for_range (λ k a, live <- map_live s k;
                    if live then body k a else ret (Next a))
            (range_keys c) a.

(** *** The container *)

Definition NewSet : M SetT := map_make.

Definition Add (s : SetT) (element : key) : M SetT :=
  _ <- map_assign s element; ret s.

Definition Has (s : SetT) (element : key) : M bool :=
  ok <- map_index s element;
  if ok then ret true else ret false.

Definition HasAllOf (s : SetT) (elements : @slice key) : M bool :=
  c <- for_range
        (λ v _, ok <- map_index s v;
                if negb ok then ret (Return false) else ret (Next ()))
        (slice_items elements) ();
  match c with
  | Return r => ret r
  | Next _ => ret true
  end.

Definition Remove (s : SetT) (element : key) : M (option (@error key)) :=
  has <- Has s element;
  if negb has then ret (Some (ErrNotFound element))
  else _ <- map_delete s element; ret None.

Definition RemoveAll (s : SetT) (elements : @slice key)
    : M (option (@error key)) :=
  if slice_is_nil elements || (slice_len elements =? 0)
  then ret (Some ErrEmptyInput)
  else
    all <- HasAllOf s elements;
    if negb all then ret (Some ErrNotAllPresent)
    else
      _ <- for_range (R := Empty_set)
             (λ v _, _ <- map_delete s v; ret (Next ()))
             (slice_items elements) ();
      ret None.

Definition Clear (s : SetT) : M SetT :=
  _ <- for_map (R := Empty_set)
         s (λ k _, _ <- map_delete s k; ret (Next ())) ();
  ret s.

Definition Copy (s : SetT) : M SetT :=
  newSet <- map_make;
  _ <- for_map (R := Empty_set)
         s (λ key _, _ <- map_assign newSet key; ret (Next ())) ();
  ret newSet.

Definition Size (s : SetT) : M nat := map_len s.

Definition ToSlice (s : SetT) : M (@slice key) :=
  n <- map_len s;
  c <- for_map (R := Empty_set)
         s (λ key '(slice, i),
              slice' <- slice_assign slice i key;
              ret (Next (slice', S i)))
         (slice_make n, 0);
  ret (Some (fall_through c).1).

Definition nil_or_empty (x : SetT) : M bool :=
  if is_nil x then ret true
  else n <- Size x; ret (n =? 0).

Definition IsSuperSetOf (s other : SetT) : M bool :=
  e <- nil_or_empty other;
  if e then ret true
  else
    c <- for_map other
          (λ key _, has <- Has s key;
                    if negb has then ret (Return false) else ret (Next ()))
          ();
    match c with
    | Return r => ret r
    | Next _ => ret true
    end.

Definition IsSubSetOf (s other : SetT) : M bool :=
  e <- nil_or_empty s;
  if e then ret true
  else
    c <- for_map s
          (λ key _, has <- Has other key;
                    if negb has then ret (Return false) else ret (Next ()))
          ();
    match c with
    | Return r => ret r
    | Next _ => ret true
    end.

Definition Diff (s other : SetT) : M SetT :=
  _ <- for_map (R := Empty_set)
         other (λ key _, _ <- Remove s key; ret (Next ())) ();
  ret s.

Definition Union (s other : SetT) : M SetT :=
  e <- nil_or_empty other;
  if e then ret s
  else
    _ <- for_map (R := Empty_set)
           other (λ key _, _ <- Add s key; ret (Next ())) ();
    ret s.

Definition Intersect (s other : SetT) : M SetT :=
  e <- nil_or_empty other;
  if e then ret s
  else
    _ <- for_map (R := Empty_set)
           s (λ key _, has <- Has other key;
                       if negb has then _ <- Remove s key; ret (Next ())
                       else ret (Next ()))
           ();
    ret s.

Definition NewIntersect (s other : SetT) : M SetT :=
  newSet <- Copy s;
  Intersect newSet other.

(** *** Reading the store in statements *)

Definition deref (h : heap) (s : SetT) : option entries :=
  match s with
  | NilSet => Some (Entries ∅ ∅)
  | SetAt l => h !! l
  end.

Definition update (s : SetT) (c : entries) (h : heap) : heap :=
  match s with
  | NilSet => h
  | SetAt l => <[l := c]> h
  end.

(** [k] is an element of the set: one of its entries. *)
Definition entry (c : entries) (k : key) : Prop :=
  match k with
  | inl p => p ∈ keys c
  | inr n => n ∈ loose c
  end.

(** The keys in a list that are equal to themselves, and those that are
    not. *)
Definition lefts (ks : list key) : list P :=
  omap (λ k, match k with inl p => Some p | inr _ => None end) ks.

Definition rights (ks : list key) : list N :=
  omap (λ k, match k with inl _ => None | inr n => Some n end) ks.

End Collections.
End AnyKey.

(** A key type with one value that is not equal to itself, and a store of
    two sets over it: [{1, NaN}] at address 1 and [{1}] at address 2. *)
Definition NaN : Z + unit := inr ().

Definition set1NaN : @AnyKey.entries Z unit _ _ _ _ :=
  AnyKey.Entries {[1%Z]} {[+ () +]}.
Definition set1 : @AnyKey.entries Z unit _ _ _ _ :=
  AnyKey.Entries {[1%Z]} ∅.

Definition heap_nan : gmap loc (@AnyKey.entries Z unit _ _ _ _) :=
  {[ 1%positive := set1NaN; 2%positive := set1 ]}.

(** ** Slice helpers: packages [gslice] and [slices]

    The functions passed to the helpers are taken to be pure. *)

Section Slices.
Context {T U : Type} {U_zero : Inhabited U}.

(** [r[i] = v]; [None] is the panic of an index out of range. *)
Definition index_assign (r : list U) (i : nat) (v : U) : option (list U) :=
  if decide (i < length r) then Some (<[i := v]> r) else None.

(** [for i, v := range s { r[i] = f(v) }], from index [i] on. *)
Fixpoint gslice_Map_loop (f : T → U) (vs : list T) (i : nat) (r : list U)
    : option (list U) :=
  match vs with
  | [] => Some r
  | v :: vs' => r' ← index_assign r i (f v); gslice_Map_loop f vs' (S i) r'
  end.

Definition gslice_Map (s : @slice T) (f : T → U) : option (@slice U) :=
  r ← gslice_Map_loop f (slice_items s) 0
        (replicate (slice_len s) inhabitant);
  Some (Some r).

(** [for _, v := range s { if f(v) { r = append(r, v) } }] *)
Fixpoint gslice_Filter_loop (f : T → bool) (vs : list T) (r : list T)
    : list T :=
  match vs with
  | [] => r
  | v :: vs' => gslice_Filter_loop f vs' (if f v then r ++ [v] else r)
  end.

Definition gslice_Filter (s : @slice T) (f : T → bool) : @slice T :=
  Some (gslice_Filter_loop f (slice_items s) []).

Fixpoint slices_AllThatSatisfies_loop (f : T → bool) (vs : list T)
    (result : list T) : list T :=
  match vs with
  | [] => result
  | v :: vs' =>
      slices_AllThatSatisfies_loop f vs'
        (if f v then result ++ [v] else result)
  end.

Definition slices_AllThatSatisfies (s : @slice T) (f : T → bool) : @slice T :=
  if slice_is_nil s || (slice_len s =? 0) then Some []
  else Some (slices_AllThatSatisfies_loop f (slice_items s) []).

(** [for _, v := range s { if v == a { return true } }; return false].
    [eqb] is [==] on the element type; nothing is assumed of it (it need
    not hold of a value and itself, and may hold of two values that a
    function tells apart). *)
Fixpoint slices_Has_loop (eqb : T → T → bool) (vs : list T) (a : T) : bool :=
  match vs with
  | [] => false
  | v :: vs' => if eqb v a then true else slices_Has_loop eqb vs' a
  end.

Definition slices_Has (eqb : T → T → bool) (s : @slice T) (a : T) : bool :=
  slices_Has_loop eqb (slice_items s) a.

End Slices.

(** ** Character classes: package [str]

    A string is read as the sequence of runes that [range] decodes from it.
    [unicode.IsNumber] and [unicode.IsLetter] belong to the standard library
    and are parameters. *)

Section Str.
Variables IsNumber IsLetter : Z → bool.

Fixpoint str_IsAlphaNumeric (v : list Z) : bool :=
  match v with
  | [] => true
  | char :: v' =>
      if negb (IsNumber char) && negb (IsLetter char) then false
      else str_IsAlphaNumeric v'
  end.

Fixpoint str_IsAlpha (v : list Z) : bool :=
  match v with
  | [] => true
  | char :: v' => if negb (IsLetter char) then false else str_IsAlpha v'
  end.

Fixpoint str_IsNumeric (v : list Z) : bool :=
  match v with
  | [] => true
  | char :: v' => if negb (IsNumber char) then false else str_IsNumeric v'
  end.

End Str.

(** ** A store to run the container on

    Three sets of integers: [{1,2,3}] at address 1, [{1,2}] at address 2 and
    [{2,3}] at address 3. *)

Definition set123 : gset Z := {[1; 2; 3]}%Z.
Definition set12 : gset Z := {[1; 2]}%Z.
Definition set23 : gset Z := {[2; 3]}%Z.

Definition heap_ex : gmap loc (gset Z) :=
  {[ 1%positive := set123; 2%positive := set12; 3%positive := set23 ]}.

(** ** Facts about the primitives *)

Section Collections_facts.
Context {T : Type} {T_eq : EqDecision T} {T_hash : Countable T}
        {T_zero : Inhabited T} {RO : RangeOrder (T := T)}.

Abbreviation heap := (gmap loc (gset T)).

Implicit Types (h : heap) (s o : SetT) (l c : loc) (m mo : gset T)
               (k e x : T) (vs ks : list T) (sl : @slice T).

Local Notation "y <- p ; q" := (bind p (λ y, q))
  (at level 20, p at level 100, q at level 200, only parsing).

Local Arguments map_assign : simpl never.
Local Arguments map_delete : simpl never.
Local Arguments map_index : simpl never.
Local Arguments load : simpl never.

Lemma bind_run {A B} (p : M A) (q : A → M B) h a h' :
  p h = Some (a, h') → bind p q h = q a h'.
Proof. intros Hp. unfold bind. by rewrite Hp. Qed.

Lemma bind_panic {A B} (p : M A) (q : A → M B) h :
  p h = None → bind p q h = None.
Proof. intros Hp. unfold bind. by rewrite Hp. Qed.

Lemma bind_bind {A B C} (p : M A) (q : A → M B) (r : B → M C) h :
  bind (bind p q) r h = bind p (λ a, bind (q a) r) h.
Proof. unfold bind. by destruct (p h) as [[a h']|]. Qed.

Lemma bind_ret {A B} (a : A) (q : A → M B) h : bind (ret a) q h = q a h.
Proof. reflexivity. Qed.

Lemma load_run h s m : deref h s = Some m → load (T := T) s h = Some (m, h).
Proof.
  unfold load. destruct s; simpl; intros Hm; simplify_eq; [done |].
  by rewrite Hm.
Qed.

Lemma map_index_run h s m k :
  deref h s = Some m → map_index s k h = Some (bool_decide (k ∈ m), h).
Proof. intros Hm. unfold map_index. by rewrite (bind_run _ _ _ _ _ (load_run _ _ _ Hm)). Qed.

Lemma deref_insert_eq h l m : deref (<[l := m]> h) (SetAt l) = Some m.
Proof. simpl. apply lookup_insert_eq. Qed.

Lemma deref_insert_ne h l m s :
  s ≠ SetAt l → deref (<[l := m]> h) s = deref h s.
Proof.
  destruct s as [|l']; [done |]. intros Hne. simpl.
  apply lookup_insert_ne. congruence.
Qed.

Lemma update_id h s m : deref h s = Some m → update s m h = h.
Proof. destruct s; [done |]. simpl. apply insert_id. Qed.

Lemma update_update h s m m' : update s m' (update s m h) = update s m' h.
Proof. destruct s; [done |]. simpl. apply insert_insert_eq. Qed.

Lemma deref_update_ne h s s' m :
  s' ≠ s → deref (update s m h) s' = deref h s'.
Proof. destruct s; [done |]. simpl. apply deref_insert_ne. Qed.

Lemma deref_update_sub h s m m' :
  deref h s = Some m → m' ⊆ m → deref (update s m' h) s = Some m'.
Proof.
  destruct s as [|l]; simpl; intros Hm Hsub.
  - f_equal. set_solver.
  - apply lookup_insert_eq.
Qed.

Lemma fresh_loc_None h : h !! fresh (dom h) = None.
Proof. apply not_elem_of_dom, is_fresh. Qed.

Lemma deref_fresh_ne h s m : deref h s = Some m → s ≠ SetAt (fresh (dom h)).
Proof. intros Hm ->. simpl in Hm. by rewrite fresh_loc_None in Hm. Qed.

Lemma Has_run h s m e :
  deref h s = Some m → Has s e h = Some (bool_decide (e ∈ m), h).
Proof.
  intros Hm. unfold Has.
  rewrite (bind_run _ _ _ _ _ (map_index_run _ _ _ e Hm)).
  by destruct (bool_decide (e ∈ m)).
Qed.

Lemma Size_run h s m : deref h s = Some m → Size s h = Some (size m, h).
Proof.
  intros Hm. unfold Size, map_len.
  by rewrite (bind_run _ _ _ _ _ (load_run _ _ _ Hm)).
Qed.

Lemma map_delete_run h s m k :
  deref h s = Some m →
  map_delete s k h = Some ((), update s (m ∖ {[k]}) h).
Proof.
  intros Hm. destruct s as [|l]; [done |]. unfold map_delete.
  by rewrite (bind_run _ _ _ _ _ (load_run _ _ _ Hm)).
Qed.

Lemma map_assign_run h l m k :
  h !! l = Some m →
  map_assign (SetAt l) k h = Some ((), <[l := {[k]} ∪ m]> h).
Proof.
  intros Hm. unfold map_assign.
  by rewrite (bind_run _ _ _ _ _ (load_run _ (SetAt l) _ Hm)).
Qed.

Lemma Add_run h l m e :
  h !! l = Some m →
  Add (SetAt l) e h = Some (SetAt l, <[l := {[e]} ∪ m]> h).
Proof.
  intros Hm. unfold Add.
  by rewrite (bind_run _ _ _ _ _ (map_assign_run _ _ _ e Hm)).
Qed.

(** Go: "panic: assignment to entry in nil map". *)
Lemma Add_nil h e : Add NilSet e h = None.
Proof. reflexivity. Qed.

Lemma Remove_absent h s m e :
  deref h s = Some m → e ∉ m →
  Remove s e h = Some (Some (ErrNotFound e), h).
Proof.
  intros Hm He. unfold Remove.
  rewrite (bind_run _ _ _ _ _ (Has_run _ _ _ e Hm)).
  by rewrite bool_decide_eq_false_2.
Qed.

Lemma Remove_present h s m e :
  deref h s = Some m → e ∈ m →
  Remove s e h = Some (None, update s (m ∖ {[e]}) h).
Proof.
  intros Hm He. unfold Remove.
  rewrite (bind_run _ _ _ _ _ (Has_run _ _ _ e Hm)).
  rewrite bool_decide_eq_true_2 by done. simpl.
  by rewrite (bind_run _ _ _ _ _ (map_delete_run _ _ _ e Hm)).
Qed.

(** [Remove] returns on every receiver, and touches the receiver only. *)
Lemma Remove_run h s m e :
  deref h s = Some m →
  Remove s e h =
    Some (if bool_decide (e ∈ m) then None else Some (ErrNotFound e),
          update s (m ∖ {[e]}) h).
Proof.
  intros Hm. case_bool_decide as He.
  - by apply Remove_present.
  - rewrite (Remove_absent _ _ _ _ Hm He).
    rewrite difference_disjoint_L by (by apply disjoint_singleton_r).
    by rewrite (update_id _ _ _ Hm).
Qed.

Lemma range_keys_set m : list_to_set (range_keys m) = m.
Proof. rewrite range_keys_perm. apply list_to_set_elements_L. Qed.

Lemma range_keys_elem m k : k ∈ range_keys m ↔ k ∈ m.
Proof. rewrite range_keys_perm. apply elem_of_elements. Qed.

Lemma range_keys_length m : length (range_keys m) = size m.
Proof. by rewrite range_keys_perm. Qed.

(** *** Loops over slices *)

Ltac mnorm := repeat (rewrite bind_bind || rewrite bind_ret); cbv beta.
Ltac msimpl :=
  repeat first [rewrite bind_bind | rewrite bind_ret | progress simpl].
Ltac run_bind lem :=
  mnorm; erewrite bind_run; [ | eapply lem; eauto ]; cbv beta; mnorm.

Lemma AddAll_loop vs : ∀ h l m,
  h !! l = Some m →
  for_range (R := Empty_set)
    (λ v _, _ <- Add (SetAt l) v; ret (Next ())) vs () h
  = Some (Next (), <[l := list_to_set vs ∪ m]> h).
Proof.
  induction vs as [|v vs IH]; intros h l m Hm; simpl.
  - unfold ret. by rewrite union_empty_l_L, insert_id.
  - run_bind Add_run.
    rewrite (IH _ l ({[v]} ∪ m)) by apply lookup_insert_eq.
    rewrite insert_insert_eq. do 3 f_equal. set_solver.
Qed.

Lemma AddAll_run h l m sl :
  h !! l = Some m →
  AddAll (SetAt l) sl h
  = Some (SetAt l, <[l := list_to_set (slice_items sl) ∪ m]> h).
Proof. intros Hm. unfold AddAll. by run_bind AddAll_loop. Qed.

Lemma HasAllOf_loop vs : ∀ h s m,
  deref h s = Some m →
  for_range
    (λ v _, ok <- map_index s v;
            if negb ok then ret (Return false) else ret (Next ())) vs () h
  = Some (if bool_decide (Forall (.∈ m) vs) then Next () else Return false, h).
Proof.
  induction vs as [|v vs IH]; intros h s m Hm; simpl.
  - done.
  - run_bind map_index_run.
    destruct (decide (v ∈ m)) as [Hv | Hv].
    + rewrite (bool_decide_eq_true_2 _ Hv). msimpl. rewrite (IH _ _ _ Hm).
      rewrite (bool_decide_ext (Forall _ (v :: vs)) (Forall (.∈ m) vs));
        [done |]. rewrite Forall_cons. tauto.
    + rewrite (bool_decide_eq_false_2 _ Hv). msimpl.
      rewrite bool_decide_eq_false_2; [done |].
      intros Hall. by inversion_clear Hall.
Qed.

Lemma HasAllOf_run h s m sl :
  deref h s = Some m →
  HasAllOf s sl h = Some (bool_decide (Forall (.∈ m) (slice_items sl)), h).
Proof.
  intros Hm. unfold HasAllOf. run_bind HasAllOf_loop.
  by case_bool_decide.
Qed.

Lemma RemoveAll_loop vs : ∀ h s m,
  deref h s = Some m →
  for_range (R := Empty_set)
    (λ v _, _ <- map_delete s v; ret (Next ())) vs () h
  = Some (Next (), update s (m ∖ list_to_set vs) h).
Proof.
  induction vs as [|v vs IH]; intros h s m Hm; simpl.
  - unfold ret. by rewrite difference_empty_L, update_id.
  - run_bind map_delete_run.
    rewrite (IH _ s (m ∖ {[v]})) by (eapply deref_update_sub; set_solver).
    rewrite update_update. do 3 f_equal. set_solver.
Qed.

Lemma RemoveAll_empty h s sl :
  slice_items sl = [] → RemoveAll s sl h = Some (Some ErrEmptyInput, h).
Proof. unfold RemoveAll. by destruct sl as [[|v vs]|]. Qed.

Lemma slice_nonempty sl :
  slice_items sl ≠ [] → slice_is_nil sl || (slice_len sl =? 0) = false.
Proof. by destruct sl as [[|v vs]|]. Qed.

Lemma RemoveAll_missing h s m sl :
  deref h s = Some m → slice_items sl ≠ [] →
  ¬ Forall (.∈ m) (slice_items sl) →
  RemoveAll s sl h = Some (Some ErrNotAllPresent, h).
Proof.
  intros Hm Hne Hall. unfold RemoveAll. rewrite slice_nonempty by done.
  run_bind HasAllOf_run. by rewrite bool_decide_eq_false_2.
Qed.

Lemma RemoveAll_present h s m sl :
  deref h s = Some m → slice_items sl ≠ [] →
  Forall (.∈ m) (slice_items sl) →
  RemoveAll s sl h
  = Some (None, update s (m ∖ list_to_set (slice_items sl)) h).
Proof.
  intros Hm Hne Hall. unfold RemoveAll. rewrite slice_nonempty by done.
  run_bind HasAllOf_run. rewrite bool_decide_eq_true_2 by done.
  cbn [negb]. by run_bind RemoveAll_loop.
Qed.

(** *** Loops over maps *)

Lemma for_map_run {A R} (body : T → A → M (ctl A R)) h s m a :
  deref h s = Some m →
  for_map s body a h
  = for_range (λ k a, live <- map_index s k;
                      if live then body k a else ret (Next a))
              (range_keys m) a h.
Proof. intros Hm. unfold for_map. by run_bind load_run. Qed.

Lemma range_keys_Forall m : Forall (.∈ m) (range_keys m).
Proof. apply Forall_forall. intros k. by rewrite range_keys_elem. Qed.

Lemma nil_or_empty_run h s m :
  deref h s = Some m → nil_or_empty s h = Some (bool_decide (m = ∅), h).
Proof.
  intros Hm. unfold nil_or_empty. destruct s as [|l]; simpl in *.
  - simplify_eq. by rewrite bool_decide_eq_true_2.
  - run_bind Size_run. unfold ret. do 2 f_equal.
    destruct (decide (m = ∅)) as [-> | Hne].
    + by rewrite size_empty, bool_decide_eq_true_2.
    + rewrite bool_decide_eq_false_2 by done.
      apply Nat.eqb_neq. rewrite size_empty_iff. by unfold_leibniz.
Qed.

Lemma Copy_loop ks : ∀ h s c m mc,
  deref h s = Some m → h !! c = Some mc → s ≠ SetAt c →
  Forall (.∈ m) ks →
  for_range (R := Empty_set)
    (λ k a, live <- map_index s k;
            if live then _ <- map_assign (SetAt c) k; ret (Next ())
            else ret (Next a)) ks () h
  = Some (Next (), <[c := list_to_set ks ∪ mc]> h).
Proof.
  induction ks as [|k ks IH]; intros h s c m mc Hm Hc Hne Hks; simpl.
  - unfold ret. by rewrite union_empty_l_L, insert_id.
  - apply Forall_cons in Hks as [Hk Hks].
    run_bind map_index_run. rewrite bool_decide_eq_true_2 by done.
    run_bind map_assign_run.
    rewrite (IH _ s c m ({[k]} ∪ mc)); try done.
    + rewrite insert_insert_eq. do 3 f_equal. set_solver.
    + by rewrite deref_insert_ne.
    + apply lookup_insert_eq.
Qed.

Lemma Copy_run h s m :
  deref h s = Some m →
  Copy s h = Some (SetAt (fresh (dom h)), <[fresh (dom h) := m]> h).
Proof.
  intros Hm. unfold Copy. pose proof (deref_fresh_ne _ _ _ Hm) as Hne.
  set (c := fresh (dom h)) in *.
  rewrite (bind_run _ _ h (SetAt c) (<[c := ∅]> h)) by done.
  assert (deref (<[c := ∅]> h) s = Some m) as Hm'
    by by rewrite deref_insert_ne.
  mnorm. erewrite bind_run;
    [| rewrite (for_map_run _ _ _ _ _ Hm');
       eapply (Copy_loop _ _ s c m ∅); eauto using range_keys_Forall;
       apply lookup_insert_eq ].
  unfold ret. rewrite insert_insert_eq, range_keys_set.
  by rewrite union_empty_r_L.
Qed.

(** [other] may be the receiver itself: the keys still to come stay in the
    map that is ranged over. *)
Lemma Union_loop ks : ∀ h l o m mo,
  h !! l = Some m → deref h o = Some mo → Forall (.∈ mo) ks →
  for_range (R := Empty_set)
    (λ k a, live <- map_index o k;
            if live then _ <- Add (SetAt l) k; ret (Next ())
            else ret (Next a)) ks () h
  = Some (Next (), <[l := list_to_set ks ∪ m]> h).
Proof.
  induction ks as [|k ks IH]; intros h l o m mo Hm Ho Hks; simpl.
  - unfold ret. by rewrite union_empty_l_L, insert_id.
  - apply Forall_cons in Hks as [Hk Hks].
    run_bind map_index_run. rewrite bool_decide_eq_true_2 by done.
    run_bind Add_run.
    destruct (decide (o = SetAt l)) as [-> | Hne].
    + simpl in Ho. assert (mo = m) as -> by congruence.
      rewrite (IH _ l (SetAt l) ({[k]} ∪ m) ({[k]} ∪ m)).
      * rewrite insert_insert_eq. do 3 f_equal. set_solver.
      * apply lookup_insert_eq.
      * apply deref_insert_eq.
      * eapply Forall_impl; [done |]. set_solver.
    + rewrite (IH _ l o ({[k]} ∪ m) mo); try done.
      * rewrite insert_insert_eq. do 3 f_equal. set_solver.
      * apply lookup_insert_eq.
      * by rewrite deref_insert_ne.
Qed.

Lemma Union_run h l o m mo :
  h !! l = Some m → deref h o = Some mo →
  Union (SetAt l) o h = Some (SetAt l, <[l := m ∪ mo]> h).
Proof.
  intros Hm Ho. unfold Union. run_bind nil_or_empty_run.
  case_bool_decide as He.
  - subst mo. unfold ret. by rewrite union_empty_r_L, insert_id.
  - erewrite bind_run;
      [| rewrite (for_map_run _ _ _ _ _ Ho);
         eapply Union_loop; eauto using range_keys_Forall ].
    unfold ret. by rewrite range_keys_set, (comm_L (∪)).
Qed.

Lemma Union_nil h o mo :
  deref h o = Some mo →
  Union NilSet o h = if decide (mo = ∅) then Some (NilSet, h) else None.
Proof.
  intros Ho. unfold Union. run_bind nil_or_empty_run.
  case_bool_decide as He; case_decide; try done.
  apply bind_panic. rewrite (for_map_run _ _ _ _ _ Ho).
  destruct (range_keys mo) as [|k ks] eqn:Hks.
  - exfalso. apply He. by rewrite <-(range_keys_set mo), Hks.
  - cbn [for_range]. run_bind map_index_run.
    rewrite bool_decide_eq_true_2; [done |].
    apply range_keys_elem. rewrite Hks. left.
Qed.

Lemma NewUnion_run h s o m mo :
  deref h s = Some m → deref h o = Some mo →
  NewUnion s o h
  = Some (SetAt (fresh (dom h)), <[fresh (dom h) := m ∪ mo]> h).
Proof.
  intros Hm Ho. unfold NewUnion. run_bind Copy_run.
  rewrite (Union_run _ _ o m mo).
  - by rewrite insert_insert_eq.
  - apply lookup_insert_eq.
  - rewrite deref_insert_ne; eauto using deref_fresh_ne.
Qed.

Lemma NewDiff_loop ks : ∀ h s o c m mo mc,
  deref h s = Some m → deref h o = Some mo → h !! c = Some mc →
  s ≠ SetAt c → o ≠ SetAt c → Forall (.∈ m) ks →
  for_range (R := Empty_set)
    (λ k a, live <- map_index s k;
            if live
            then has <- Has o k;
                 if negb has then _ <- Add (SetAt c) k; ret (Next ())
                 else ret (Next ())
            else ret (Next a)) ks () h
  = Some (Next (), <[c := (list_to_set ks ∖ mo) ∪ mc]> h).
Proof.
  induction ks as [|k ks IH]; intros h s o c m mo mc Hm Ho Hc Hs Hoc Hks;
    simpl.
  - unfold ret. rewrite insert_id; [done |]. rewrite Hc. f_equal. set_solver.
  - apply Forall_cons in Hks as [Hk Hks].
    run_bind map_index_run. rewrite bool_decide_eq_true_2 by done.
    run_bind Has_run. destruct (decide (k ∈ mo)) as [Hin | Hout].
    + rewrite (bool_decide_eq_true_2 _ Hin). msimpl.
      rewrite (IH _ s o c m mo mc); try done. do 3 f_equal. set_solver.
    + rewrite (bool_decide_eq_false_2 _ Hout). cbn [negb].
      run_bind Add_run.
      rewrite (IH _ s o c m mo ({[k]} ∪ mc)).
      * rewrite insert_insert_eq. do 3 f_equal. set_solver.
      * by rewrite deref_insert_ne.
      * by rewrite deref_insert_ne.
      * apply lookup_insert_eq.
      * done.
      * done.
      * done.
Qed.

Lemma NewDiff_run h s o m mo :
  deref h s = Some m → deref h o = Some mo →
  NewDiff s o h
  = Some (SetAt (fresh (dom h)), <[fresh (dom h) := m ∖ mo]> h).
Proof.
  intros Hm Ho. unfold NewDiff, NewSet.
  pose proof (deref_fresh_ne _ _ _ Hm) as Hs.
  pose proof (deref_fresh_ne _ _ _ Ho) as Hoc.
  set (c := fresh (dom h)) in *.
  rewrite (bind_run _ _ h (SetAt c) (<[c := ∅]> h)) by done.
  assert (deref (<[c := ∅]> h) s = Some m) as Hm'
    by by rewrite deref_insert_ne.
  assert (deref (<[c := ∅]> h) o = Some mo) as Ho'
    by by rewrite deref_insert_ne.
  mnorm. erewrite bind_run;
    [| rewrite (for_map_run _ _ _ _ _ Hm');
       eapply (NewDiff_loop _ _ s o c m mo ∅);
       eauto using range_keys_Forall; apply lookup_insert_eq ].
  unfold ret. rewrite insert_insert_eq, range_keys_set.
  by rewrite union_empty_r_L.
Qed.

Lemma range_keys_empty : range_keys (∅ : gset T) = [].
Proof.
  apply Permutation_nil_r. by rewrite range_keys_perm, elements_empty.
Qed.

(** The loop of [Intersect] deletes from the map it ranges over, but only
    the key it is at. *)
Lemma Intersect_loop ks : ∀ h l o m mo,
  h !! l = Some m → deref h o = Some mo → o ≠ SetAt l →
  for_range (R := Empty_set)
    (λ k a, live <- map_index (SetAt l) k;
            if live
            then has <- Has o k;
                 if negb has then _ <- Remove (SetAt l) k; ret (Next ())
                 else ret (Next ())
            else ret (Next a)) ks () h
  = Some (Next (), <[l := m ∖ (list_to_set ks ∖ mo)]> h).
Proof.
  induction ks as [|k ks IH]; intros h l o m mo Hm Ho Hne; simpl.
  - unfold ret. rewrite insert_id; [done |]. rewrite Hm. f_equal. set_solver.
  - run_bind map_index_run. destruct (decide (k ∈ m)) as [Hk | Hk].
    + rewrite (bool_decide_eq_true_2 _ Hk). run_bind Has_run.
      destruct (decide (k ∈ mo)) as [Hin | Hout].
      * rewrite (bool_decide_eq_true_2 _ Hin). msimpl.
        rewrite (IH _ l o m mo); try done. do 3 f_equal. set_solver.
      * rewrite (bool_decide_eq_false_2 _ Hout). cbn [negb].
        run_bind Remove_present. cbn [update].
        rewrite (IH _ l o (m ∖ {[k]}) mo).
        -- rewrite insert_insert_eq. do 3 f_equal. set_solver.
        -- apply lookup_insert_eq.
        -- by rewrite deref_insert_ne.
        -- done.
    + rewrite (bool_decide_eq_false_2 _ Hk). msimpl.
      rewrite (IH _ l o m mo); try done. do 3 f_equal. set_solver.
Qed.

Lemma Intersect_loop_alias ks : ∀ h l m,
  h !! l = Some m →
  for_range (R := Empty_set)
    (λ k a, live <- map_index (SetAt l) k;
            if live
            then has <- Has (SetAt l) k;
                 if negb has then _ <- Remove (SetAt l) k; ret (Next ())
                 else ret (Next ())
            else ret (Next a)) ks () h
  = Some (Next (), h).
Proof.
  induction ks as [|k ks IH]; intros h l m Hm; simpl; [done |].
  run_bind map_index_run. destruct (decide (k ∈ m)) as [Hk | Hk].
  - rewrite (bool_decide_eq_true_2 _ Hk). run_bind Has_run.
    rewrite (bool_decide_eq_true_2 _ Hk). msimpl. eauto.
  - rewrite (bool_decide_eq_false_2 _ Hk). msimpl. eauto.
Qed.

(** [Intersect] on any receiver and any [other], the receiver itself
    included. *)
Lemma Intersect_run h s o m mo :
  deref h s = Some m → deref h o = Some mo →
  Intersect s o h
  = Some (s, update s (if decide (mo = ∅) then m else m ∩ mo) h).
Proof.
  intros Hm Ho. unfold Intersect. run_bind nil_or_empty_run.
  case_bool_decide as He; case_decide; try done.
  { unfold ret. by rewrite update_id. }
  rewrite (bind_run _ _ h (Next ())
             (update s (m ∖ (list_to_set (range_keys m) ∖ mo)) h)).
  { unfold ret. rewrite range_keys_set. do 3 f_equal.
    apply set_eq. intros x. rewrite elem_of_difference, elem_of_difference,
      elem_of_intersection. destruct (decide (x ∈ mo)); tauto. }
  rewrite (for_map_run _ _ _ _ _ Hm). destruct s as [|l].
  - simpl in Hm. simplify_eq. by rewrite range_keys_empty.
  - cbn [update]. destruct (decide (o = SetAt l)) as [-> | Hne].
    + simpl in Hm, Ho. assert (mo = m) as -> by congruence.
      rewrite (Intersect_loop_alias _ _ _ _ Hm). do 2 f_equal.
      symmetry. apply insert_id. rewrite Hm. f_equal.
      rewrite range_keys_set. set_solver.
    + by apply Intersect_loop.
Qed.

Lemma NewIntersect_run h s o m mo :
  deref h s = Some m → deref h o = Some mo →
  NewIntersect s o h
  = Some (SetAt (fresh (dom h)),
          <[fresh (dom h) := if decide (mo = ∅) then m else m ∩ mo]> h).
Proof.
  intros Hm Ho. unfold NewIntersect. run_bind Copy_run.
  rewrite (Intersect_run _ _ o m mo).
  - cbn [update]. by rewrite insert_insert_eq.
  - apply deref_insert_eq.
  - rewrite deref_insert_ne; eauto using deref_fresh_ne.
Qed.

(** The loop shared by [IsSuperSetOf] and [IsSubSetOf]: it ranges over
    [src] and leaves at the first key that [tgt] does not hold. *)
Lemma subset_loop ks : ∀ h src tgt ms mt,
  deref h src = Some ms → deref h tgt = Some mt → Forall (.∈ ms) ks →
  for_range
    (λ k a, live <- map_index src k;
            if live
            then has <- Has tgt k;
                 if negb has then ret (Return false) else ret (Next ())
            else ret (Next a)) ks () h
  = Some (if bool_decide (Forall (.∈ mt) ks) then Next () else Return false,
          h).
Proof.
  induction ks as [|k ks IH]; intros h src tgt ms mt Hs Ht Hks; simpl.
  - done.
  - apply Forall_cons in Hks as [Hk Hks].
    run_bind map_index_run. rewrite bool_decide_eq_true_2 by done.
    run_bind Has_run. destruct (decide (k ∈ mt)) as [Hin | Hout].
    + rewrite (bool_decide_eq_true_2 _ Hin). msimpl.
      rewrite (IH _ src tgt ms mt) by done.
      rewrite (bool_decide_ext (Forall _ (k :: ks)) (Forall (.∈ mt) ks));
        [done |]. rewrite Forall_cons. tauto.
    + rewrite (bool_decide_eq_false_2 _ Hout). msimpl.
      rewrite bool_decide_eq_false_2; [done |].
      intros Hall. by inversion_clear Hall.
Qed.

Lemma range_keys_subseteq m mt : Forall (.∈ mt) (range_keys m) ↔ m ⊆ mt.
Proof.
  rewrite Forall_forall. apply forall_proper. intros k.
  by rewrite range_keys_elem.
Qed.

Lemma IsSuperSetOf_run h s o m mo :
  deref h s = Some m → deref h o = Some mo →
  IsSuperSetOf s o h = Some (bool_decide (mo ⊆ m), h).
Proof.
  intros Hm Ho. unfold IsSuperSetOf. run_bind nil_or_empty_run.
  case_bool_decide as He.
  - subst mo. unfold ret. rewrite bool_decide_eq_true_2; [done |].
    apply empty_subseteq.
  - erewrite bind_run;
      [| rewrite (for_map_run _ _ _ _ _ Ho);
         eapply (subset_loop _ _ o s mo m); eauto using range_keys_Forall ].
    cbv beta. rewrite (bool_decide_ext _ _ (range_keys_subseteq mo m)).
    by case_bool_decide.
Qed.

Lemma IsSubSetOf_run h s o m mo :
  deref h s = Some m → deref h o = Some mo →
  IsSubSetOf s o h = Some (bool_decide (m ⊆ mo), h).
Proof.
  intros Hm Ho. unfold IsSubSetOf. run_bind nil_or_empty_run.
  case_bool_decide as He.
  - subst m. unfold ret. rewrite bool_decide_eq_true_2; [done |].
    apply empty_subseteq.
  - erewrite bind_run;
      [| rewrite (for_map_run _ _ _ _ _ Hm);
         eapply (subset_loop _ _ s o m mo); eauto using range_keys_Forall ].
    cbv beta. rewrite (bool_decide_ext _ _ (range_keys_subseteq m mo)).
    by case_bool_decide.
Qed.

(** [Clear] deletes the key it is at, as [Intersect] does. *)
Lemma Clear_loop ks : ∀ h l m,
  h !! l = Some m →
  for_range (R := Empty_set)
    (λ k a, live <- map_index (SetAt l) k;
            if live then _ <- map_delete (SetAt l) k; ret (Next ())
            else ret (Next a)) ks () h
  = Some (Next (), <[l := m ∖ list_to_set ks]> h).
Proof.
  induction ks as [|k ks IH]; intros h l m Hm; simpl.
  - unfold ret. by rewrite difference_empty_L, insert_id.
  - run_bind map_index_run. destruct (decide (k ∈ m)) as [Hk | Hk].
    + rewrite (bool_decide_eq_true_2 _ Hk). run_bind map_delete_run.
      cbn [update]. rewrite (IH _ l (m ∖ {[k]})) by apply lookup_insert_eq.
      rewrite insert_insert_eq. do 3 f_equal. set_solver.
    + rewrite (bool_decide_eq_false_2 _ Hk). msimpl.
      rewrite (IH _ l m Hm). do 3 f_equal. set_solver.
Qed.

Lemma Clear_run h s m :
  deref h s = Some m → Clear s h = Some (s, update s ∅ h).
Proof.
  intros Hm. unfold Clear.
  rewrite (bind_run _ _ h (Next ()) (update s ∅ h)); [done |].
  rewrite (for_map_run _ _ _ _ _ Hm). destruct s as [|l].
  - simpl in Hm. simplify_eq. by rewrite range_keys_empty.
  - rewrite (Clear_loop _ _ _ m Hm). rewrite range_keys_set.
    cbn [update]. do 3 f_equal. set_solver.
Qed.

Lemma Diff_loop ks : ∀ h s o m mo,
  deref h s = Some m → deref h o = Some mo → o ≠ s →
  for_range (R := Empty_set)
    (λ k a, live <- map_index o k;
            if live then _ <- Remove s k; ret (Next ())
            else ret (Next a)) ks () h
  = Some (Next (), update s (m ∖ (list_to_set ks ∩ mo)) h).
Proof.
  induction ks as [|k ks IH]; intros h s o m mo Hm Ho Hne; simpl.
  - unfold ret. rewrite update_id; [done |]. rewrite Hm. f_equal. set_solver.
  - run_bind map_index_run. destruct (decide (k ∈ mo)) as [Hk | Hk].
    + rewrite (bool_decide_eq_true_2 _ Hk). run_bind Remove_run.
      rewrite (IH _ s o (m ∖ {[k]}) mo).
      * rewrite update_update. do 3 f_equal. set_solver.
      * eapply deref_update_sub; [done | set_solver].
      * by rewrite deref_update_ne.
      * done.
    + rewrite (bool_decide_eq_false_2 _ Hk). msimpl.
      rewrite (IH _ s o m mo) by done. do 3 f_equal. set_solver.
Qed.

(** [s.Diff(s)]: the loop ranges over the map it deletes from. *)
Lemma Diff_loop_alias ks : ∀ h l m,
  h !! l = Some m →
  for_range (R := Empty_set)
    (λ k a, live <- map_index (SetAt l) k;
            if live then _ <- Remove (SetAt l) k; ret (Next ())
            else ret (Next a)) ks () h
  = Some (Next (), <[l := m ∖ list_to_set ks]> h).
Proof.
  induction ks as [|k ks IH]; intros h l m Hm; simpl.
  - unfold ret. by rewrite difference_empty_L, insert_id.
  - run_bind map_index_run. destruct (decide (k ∈ m)) as [Hk | Hk].
    + rewrite (bool_decide_eq_true_2 _ Hk). run_bind Remove_present.
      cbn [update]. rewrite (IH _ l (m ∖ {[k]})) by apply lookup_insert_eq.
      rewrite insert_insert_eq. do 3 f_equal. set_solver.
    + rewrite (bool_decide_eq_false_2 _ Hk). msimpl.
      rewrite (IH _ l m Hm). do 3 f_equal. set_solver.
Qed.

Lemma Diff_run h s o m mo :
  deref h s = Some m → deref h o = Some mo →
  Diff s o h = Some (s, update s (m ∖ mo) h).
Proof.
  intros Hm Ho. unfold Diff.
  rewrite (bind_run _ _ h (Next ()) (update s (m ∖ mo) h)); [done |].
  rewrite (for_map_run _ _ _ _ _ Ho).
  destruct (decide (o = s)) as [-> | Hne].
  - assert (mo = m) as -> by congruence. destruct s as [|l].
    + simpl in Hm. simplify_eq. by rewrite range_keys_empty.
    + by rewrite (Diff_loop_alias _ _ _ m Hm), range_keys_set.
  - rewrite (Diff_loop _ _ s o m mo) by done. rewrite range_keys_set.
    do 3 f_equal. set_solver.
Qed.

Lemma slice_assign_run h (buf : list T) i k :
  i < length buf → slice_assign buf i k h = Some (<[i := k]> buf, h).
Proof. intros Hi. unfold slice_assign. by rewrite decide_True. Qed.

(** The index never leaves the slice: it was made with one cell per key. *)
Lemma ToSlice_loop ks : ∀ h s m (buf : list T) i,
  deref h s = Some m → Forall (.∈ m) ks → i + length ks ≤ length buf →
  for_range (R := Empty_set)
    (λ k a, live <- map_index s k;
            if live
            then (λ key '(slice, i),
                    slice' <- slice_assign slice i key;
                    ret (Next (slice', S i))) k a
            else ret (Next a)) ks (buf, i) h
  = Some (Next (take i buf ++ ks ++ drop (i + length ks) buf,
                i + length ks), h).
Proof.
  induction ks as [|k ks IH]; intros h s m buf i Hm Hks Hlen;
    cbn [for_range length] in *.
  - unfold ret. rewrite Nat.add_0_r. by rewrite app_nil_l, take_drop.
  - apply Forall_cons in Hks as [Hk Hks].
    run_bind map_index_run. rewrite bool_decide_eq_true_2 by done.
    run_bind slice_assign_run; [| lia].
    rewrite (IH _ s m) by (rewrite ?length_insert; done || lia).
    unfold ret. do 3 f_equal. f_equal; [| lia].
    rewrite (take_S_r _ _ k) by (apply list_lookup_insert_eq; lia).
    rewrite take_insert_ge by done.
    rewrite drop_insert_lt by lia.
    rewrite <-(assoc_L (++)). simpl. by rewrite Nat.add_succ_r.
Qed.

Lemma ToSlice_run h s m :
  deref h s = Some m → ToSlice s h = Some (Some (range_keys m), h).
Proof.
  intros Hm. unfold ToSlice. run_bind Size_run.
  erewrite bind_run;
    [| rewrite (for_map_run _ _ _ _ _ Hm);
       eapply (ToSlice_loop _ _ s m); eauto using range_keys_Forall;
       unfold slice_make; rewrite length_replicate, range_keys_length; lia ].
  unfold ret, slice_make. cbn [fall_through fst]. do 3 f_equal.
  rewrite take_0, Nat.add_0_l, drop_ge, app_nil_r; [done |].
  by rewrite length_replicate, range_keys_length.
Qed.

Lemma size_list_to_set_dups vs :
  size (list_to_set vs : gset T) = length (remove_dups vs).
Proof.
  rewrite <-(size_list_to_set (C := gset T)) by apply NoDup_remove_dups.
  f_equal. apply set_eq. intros x.
  by rewrite !elem_of_list_to_set, elem_of_remove_dups.
Qed.

(** Only the receiver of [Add] is written. *)
Lemma Add_frame h s e r h' s' :
  Add s e h = Some (r, h') → s' ≠ s → deref h' s' = deref h s'.
Proof.
  destruct s as [|l]; [done |]. intros Hadd Hne.
  destruct (h !! l) as [m|] eqn:Hm.
  - rewrite (Add_run _ _ _ _ Hm) in Hadd. simplify_eq.
    by apply deref_insert_ne.
  - unfold Add in Hadd. rewrite bind_panic in Hadd; [done |].
    unfold map_assign. apply bind_panic. unfold load. by rewrite Hm.
Qed.

(** ** The specification's claims *)

(** C1. [RemoveAll] is atomic.  On a nil or empty slice it fails with
    [ErrEmptyInput] and the store is the one it started from.  On a
    non-empty slice with an element that is not in the set it fails with
    [ErrNotAllPresent], again in the same store: nothing was removed.
    Otherwise it succeeds, and afterwards no element of the slice is in the
    set (the set is the old one without the listed elements). *)
Theorem RemoveAll_atomic h s m sl :
  deref h s = Some m →
  (sl = None ∨ sl = Some [] →
     RemoveAll s sl h = Some (Some ErrEmptyInput, h))
  ∧ (∀ vs, sl = Some vs → vs ≠ [] → (∃ x, x ∈ vs ∧ x ∉ m) →
       RemoveAll s sl h = Some (Some ErrNotAllPresent, h))
  ∧ (∀ vs, sl = Some vs → vs ≠ [] → (∀ x, x ∈ vs → x ∈ m) →
       ∃ h', RemoveAll s sl h = Some (None, h')
           ∧ (∀ x, x ∈ vs → Has s x h' = Some (false, h'))
           ∧ deref h' s = Some (m ∖ list_to_set vs)).
Proof.
  intros Hm. split_and!.
  - intros [-> | ->]; by apply RemoveAll_empty.
  - intros vs -> Hne (x & Hx & Hnx). apply (RemoveAll_missing _ _ m); try done.
    rewrite Forall_forall. eauto.
  - intros vs -> Hne Hall.
    assert (deref (update s (m ∖ list_to_set vs) h) s
            = Some (m ∖ list_to_set vs)) as Hm'
      by (eapply deref_update_sub; [done | set_solver]).
    exists (update s (m ∖ list_to_set vs) h). split_and!; [| | exact Hm'].
    + apply (RemoveAll_present _ _ m); try done. by apply Forall_forall.
    + intros x Hx. rewrite (Has_run _ _ _ x Hm').
      rewrite bool_decide_eq_false_2; [done |]. set_solver.
Qed.

(** C10. [RemoveAll] accepts a slice that lists an element more than once:
    if the slice is non-empty and each of its entries is in the set, the
    call succeeds, and [Size] has gone down by the number of distinct
    elements of the slice. *)
Theorem RemoveAll_duplicates h s m vs :
  deref h s = Some m → vs ≠ [] → (∀ x, x ∈ vs → x ∈ m) →
  ∃ h', RemoveAll s (Some vs) h = Some (None, h')
      ∧ Size s h' = Some (size m - length (remove_dups vs), h')
      ∧ length (remove_dups vs) ≤ size m.
Proof.
  intros Hm Hne Hall.
  assert (list_to_set vs ⊆ m) as Hsub.
  { intros x. rewrite elem_of_list_to_set. auto. }
  assert (deref (update s (m ∖ list_to_set vs) h) s
          = Some (m ∖ list_to_set vs)) as Hm'
    by (eapply deref_update_sub; [done | set_solver]).
  exists (update s (m ∖ list_to_set vs) h). split_and!.
  - apply (RemoveAll_present _ _ m); try done. by apply Forall_forall.
  - rewrite (Size_run _ _ _ Hm'). do 2 f_equal.
    by rewrite size_difference, size_list_to_set_dups.
  - rewrite <-size_list_to_set_dups. by apply subseteq_size.
Qed.

(** C6. [Remove(e)] returns the not-found error exactly when [e] is not in
    the set, and then the store is unchanged.  When [e] is in the set it
    returns no error, [e] is gone, [Size] is one less, and every other
    element is in the set exactly if it was. *)
Theorem Remove_spec h s m e :
  deref h s = Some m →
  ∃ err h', Remove s e h = Some (err, h')
      ∧ (err = Some (ErrNotFound e) ↔ e ∉ m)
      ∧ (err = None ↔ e ∈ m)
      ∧ (e ∉ m → h' = h)
      ∧ (e ∈ m →
           Has s e h' = Some (false, h')
           ∧ (∃ n, Size s h' = Some (n, h') ∧ n + 1 = size m)
           ∧ ∀ x, x ≠ e → Has s x h' = Some (bool_decide (x ∈ m), h')).
Proof.
  intros Hm. destruct (decide (e ∈ m)) as [He | He].
  - assert (deref (update s (m ∖ {[e]}) h) s = Some (m ∖ {[e]})) as Hm'
      by (eapply deref_update_sub; [done | set_solver]).
    exists None, (update s (m ∖ {[e]}) h). split_and!; try done.
    + by apply Remove_present.
    + intros _. split_and!.
      * rewrite (Has_run _ _ _ e Hm').
        rewrite bool_decide_eq_false_2; [done |]. set_solver.
      * exists (size (m ∖ {[e]})). split; [by apply Size_run |].
        rewrite size_difference, size_singleton by set_solver.
        assert (size m ≠ 0); [| lia].
        rewrite size_non_empty_iff. set_solver.
      * intros x Hx. rewrite (Has_run _ _ _ x Hm'). do 2 f_equal.
        apply bool_decide_ext. set_solver.
  - exists (Some (ErrNotFound e)), h. split_and!; try done.
    by apply (Remove_absent _ _ m).
Qed.

(** C4. [NewUnion], [NewDiff] and [NewIntersect] return a set that did not
    exist before the call, distinct from both operands, and leave both
    operands with the elements they had.  The result of [NewUnion] holds
    the elements of either operand, the result of [NewDiff] those of the
    receiver that [other] does not hold. *)
Theorem New_ops_leave_operands h s o m mo :
  deref h s = Some m → deref h o = Some mo →
  (∃ c h', NewUnion s o h = Some (SetAt c, h')
       ∧ h !! c = None ∧ SetAt c ≠ s ∧ SetAt c ≠ o
       ∧ deref h' s = Some m ∧ deref h' o = Some mo
       ∧ deref h' (SetAt c) = Some (m ∪ mo))
  ∧ (∃ c h', NewDiff s o h = Some (SetAt c, h')
       ∧ h !! c = None ∧ SetAt c ≠ s ∧ SetAt c ≠ o
       ∧ deref h' s = Some m ∧ deref h' o = Some mo
       ∧ deref h' (SetAt c) = Some (m ∖ mo))
  ∧ (∃ c h', NewIntersect s o h = Some (SetAt c, h')
       ∧ h !! c = None ∧ SetAt c ≠ s ∧ SetAt c ≠ o
       ∧ deref h' s = Some m ∧ deref h' o = Some mo).
Proof.
  intros Hm Ho.
  pose proof (deref_fresh_ne _ _ _ Hm) as Hs.
  pose proof (deref_fresh_ne _ _ _ Ho) as Hoc.
  pose proof (fresh_loc_None h) as Hc.
  pose proof (NewUnion_run _ _ _ _ _ Hm Ho) as Hunion.
  pose proof (NewDiff_run _ _ _ _ _ Hm Ho) as Hdiff.
  pose proof (NewIntersect_run _ _ _ _ _ Hm Ho) as Hinter.
  set (c := fresh (dom h)) in *.
  split_and!; eexists c, _; (split; [eassumption |]);
    rewrite ?deref_insert_eq, !deref_insert_ne by done; by split_and!.
Qed.

(** C7. [Copy] returns a set that did not exist before the call, with the
    elements and the size of the receiver.  From then on, whatever the two
    sets have come to hold, [Add] and [Remove] on the copy leave the
    receiver as it is, and [Add] and [Remove] on the receiver leave the
    copy as it is. *)
Theorem Copy_independent h s m :
  deref h s = Some m →
  ∃ c h', Copy s h = Some (SetAt c, h')
      ∧ h !! c = None ∧ SetAt c ≠ s
      ∧ deref h' (SetAt c) = Some m ∧ deref h' s = Some m
      ∧ Size (SetAt c) h' = Some (size m, h')
      ∧ Size s h' = Some (size m, h')
      ∧ (∀ x, Has (SetAt c) x h' = Some (bool_decide (x ∈ m), h')
              ∧ Has s x h' = Some (bool_decide (x ∈ m), h'))
      ∧ ∀ h1 ms mc e,
          deref h1 s = Some ms → deref h1 (SetAt c) = Some mc →
          (∃ h2, Add (SetAt c) e h1 = Some (SetAt c, h2)
               ∧ deref h2 s = Some ms)
          ∧ (∃ err h2, Remove (SetAt c) e h1 = Some (err, h2)
               ∧ deref h2 s = Some ms)
          ∧ (∃ err h2, Remove s e h1 = Some (err, h2)
               ∧ deref h2 (SetAt c) = Some mc)
          ∧ (s ≠ NilSet →
               ∃ h2, Add s e h1 = Some (s, h2)
                   ∧ deref h2 (SetAt c) = Some mc)
          ∧ (∀ r h2, Add s e h1 = Some (r, h2) →
               deref h2 (SetAt c) = Some mc).
Proof.
  intros Hm. pose proof (Copy_run _ _ _ Hm) as Hrun.
  pose proof (deref_fresh_ne _ _ _ Hm) as Hs.
  pose proof (fresh_loc_None h) as Hc.
  set (c := fresh (dom h)) in *.
  assert (deref (<[c := m]> h) s = Some m) as Hm'
    by by rewrite deref_insert_ne.
  pose proof (deref_insert_eq h c m) as Hcm.
  eexists c, _. split; [exact Hrun |]. split_and!; try done.
  - by apply Size_run.
  - by apply Size_run.
  - intros x. split; by apply Has_run.
  - intros h1 ms mc e Hms Hmc. split_and!.
    + eexists. split; [by apply Add_run |]. by rewrite deref_insert_ne.
    + eexists _, _. split; [by apply Remove_run |].
      by rewrite deref_update_ne.
    + eexists _, _. split; [by apply Remove_run |].
      by rewrite deref_update_ne.
    + intros Hnil. destruct s as [|l]; [done |].
      eexists. split; [by apply Add_run |]. by rewrite deref_insert_ne.
    + intros r h2 Hadd. by rewrite (Add_frame _ _ _ _ _ _ Hadd).
Qed.

(** C8. Round trip through [ToSlice]: whatever the order in which [ToSlice]
    lists the elements, [AddAll] of that slice (or of the same elements in
    any other order) into a new set gives a set whose [Size] is that of the
    original and whose [Has] agrees with the original's on every element. *)
Theorem ToSlice_roundtrip h s m :
  deref h s = Some m →
  ∃ sl n h',
    ToSlice s h = Some (sl, h)
    ∧ slice_items sl ≡ₚ elements m
    ∧ (ns <- NewSet; AddAll ns sl) h = Some (SetAt n, h')
    ∧ (∀ vs, vs ≡ₚ slice_items sl →
         (ns <- NewSet; AddAll ns (Some vs)) h = Some (SetAt n, h'))
    ∧ SetAt n ≠ s
    ∧ Size (SetAt n) h' = Some (size m, h')
    ∧ Size s h' = Some (size m, h')
    ∧ ∀ x, Has (SetAt n) x h' = Some (bool_decide (x ∈ m), h')
           ∧ Has s x h' = Some (bool_decide (x ∈ m), h').
Proof.
  intros Hm. pose proof (deref_fresh_ne _ _ _ Hm) as Hs.
  set (n := fresh (dom h)) in *.
  exists (Some (range_keys m)), n, (<[n := m]> h).
  assert (deref (<[n := m]> h) s = Some m) as Hm'
    by by rewrite deref_insert_ne.
  pose proof (deref_insert_eq h n m) as Hn.
  assert (∀ vs, vs ≡ₚ range_keys m →
            (ns <- NewSet; AddAll ns (Some vs)) h
            = Some (SetAt n, <[n := m]> h)) as Hbuild.
  { intros vs Hvs. unfold NewSet.
    rewrite (bind_run _ _ h (SetAt n) (<[n := ∅]> h)) by done.
    rewrite (AddAll_run _ _ ∅) by apply lookup_insert_eq.
    unfold slice_items. simpl.
    rewrite insert_insert_eq, Hvs, range_keys_set.
    by rewrite union_empty_r_L. }
  split_and!; try done.
  - by apply ToSlice_run.
  - apply range_keys_perm.
  - by apply Hbuild.
  - by apply Size_run.
  - by apply Size_run.
  - intros x. split; by apply Has_run.
Qed.

(** C9. [IsSuperSetOf(other)] is true when [other] is nil or empty, and in
    every case it is true exactly when each element of [other] is in the
    receiver.  [IsSubSetOf(other)] is true when the receiver is nil or
    empty, and in every case it is true exactly when each element of the
    receiver is in [other].  Neither writes the store. *)
Theorem IsSuperSetOf_IsSubSetOf_spec h s o m mo :
  deref h s = Some m → deref h o = Some mo →
  (∃ b, IsSuperSetOf s o h = Some (b, h)
      ∧ (o = NilSet ∨ mo = ∅ → b = true)
      ∧ (b = true ↔ ∀ x, x ∈ mo → x ∈ m))
  ∧ (∃ b, IsSubSetOf s o h = Some (b, h)
      ∧ (s = NilSet ∨ m = ∅ → b = true)
      ∧ (b = true ↔ ∀ x, x ∈ m → x ∈ mo)).
Proof.
  intros Hm Ho. split.
  - exists (bool_decide (mo ⊆ m)). split_and!.
    + by apply IsSuperSetOf_run.
    + intros Hempty. assert (mo = ∅) as ->.
      { destruct Hempty as [-> | ->]; [| done]. simpl in Ho. congruence. }
      apply bool_decide_eq_true_2, empty_subseteq.
    + by rewrite bool_decide_eq_true.
  - exists (bool_decide (m ⊆ mo)). split_and!.
    + by apply IsSubSetOf_run.
    + intros Hempty. assert (m = ∅) as ->.
      { destruct Hempty as [-> | ->]; [| done]. simpl in Hm. congruence. }
      apply bool_decide_eq_true_2, empty_subseteq.
    + by rewrite bool_decide_eq_true.
Qed.

(** ** Further properties of the container *)

(** X2. In-place [Union] on an allocated receiver returns the receiver, which
    then holds its old elements and those of [other]; no other object is
    written, and with a nil or empty [other] the store is unchanged. *)
Theorem Union_spec h l o m mo :
  h !! l = Some m → deref h o = Some mo →
  ∃ h', Union (SetAt l) o h = Some (SetAt l, h')
      ∧ h' !! l = Some (m ∪ mo)
      ∧ (∀ x, Has (SetAt l) x h' = Some (bool_decide (x ∈ m ∨ x ∈ mo), h'))
      ∧ (∀ s', s' ≠ SetAt l → deref h' s' = deref h s')
      ∧ (mo = ∅ → h' = h).
Proof.
  intros Hm Ho. exists (<[l := m ∪ mo]> h).
  pose proof (deref_insert_eq h l (m ∪ mo)) as Hm'.
  split_and!; try done.
  - by apply Union_run.
  - intros x. rewrite (Has_run _ _ _ x Hm'). do 2 f_equal.
    apply bool_decide_ext. set_solver.
  - intros s' Hs'. by apply deref_insert_ne.
  - intros ->. rewrite union_empty_r_L. by apply insert_id.
Qed.

(** X3. [Union] on the nil receiver: with a nil or empty [other] it returns
    the nil receiver and leaves the store; with a non-empty [other] it does
    not return (the first [Add] assigns into the nil map). *)
Theorem Union_nil_receiver h o mo :
  deref h o = Some mo →
  (mo = ∅ → Union NilSet o h = Some (NilSet, h))
  ∧ (mo ≠ ∅ → Union NilSet o h = None).
Proof.
  intros Ho. rewrite (Union_nil _ _ _ Ho).
  split; intros Hmo; by case_decide.
Qed.

(** X5. [MustRemove] returns exactly when the element is in the set: then it
    returns the receiver without the element; otherwise it panics. *)
Theorem MustRemove_spec h s m e :
  deref h s = Some m →
  (e ∈ m →
     ∃ h', MustRemove s e h = Some (s, h')
         ∧ deref h' s = Some (m ∖ {[e]})
         ∧ ∀ s', s' ≠ s → deref h' s' = deref h s')
  ∧ (e ∉ m → MustRemove s e h = None).
Proof.
  intros Hm. split; intros He; unfold MustRemove.
  - exists (update s (m ∖ {[e]}) h). split_and!.
    + by rewrite (bind_run _ _ _ _ _ (Remove_present _ _ _ _ Hm He)).
    + eapply deref_update_sub; [done | set_solver].
    + intros s' Hs'. by apply deref_update_ne.
  - by rewrite (bind_run _ _ _ _ _ (Remove_absent _ _ _ _ Hm He)).
Qed.

(** X6. [MustRemoveAll] panics on a nil or empty slice and on a slice with an
    element that is not in the set; otherwise it returns the receiver
    without the listed elements. *)
Theorem MustRemoveAll_spec h s m sl :
  deref h s = Some m →
  (slice_items sl = [] → MustRemoveAll s sl h = None)
  ∧ ((∃ x, x ∈ slice_items sl ∧ x ∉ m) → MustRemoveAll s sl h = None)
  ∧ (slice_items sl ≠ [] → (∀ x, x ∈ slice_items sl → x ∈ m) →
       ∃ h', MustRemoveAll s sl h = Some (s, h')
           ∧ deref h' s = Some (m ∖ list_to_set (slice_items sl))).
Proof.
  intros Hm. unfold MustRemoveAll. split_and!.
  - intros Hnil. by rewrite (bind_run _ _ _ _ _ (RemoveAll_empty h s sl Hnil)).
  - intros (x & Hx & Hnx).
    assert (slice_items sl ≠ []) as Hne by (intros Hnil; rewrite Hnil in Hx;
                                              by apply not_elem_of_nil in Hx).
    assert (¬ Forall (.∈ m) (slice_items sl)) as Hall
      by (rewrite Forall_forall; eauto).
    by rewrite (bind_run _ _ _ _ _ (RemoveAll_missing h s m sl Hm Hne Hall)).
  - intros Hne Hall. apply Forall_forall in Hall.
    exists (update s (m ∖ list_to_set (slice_items sl)) h). split.
    + by rewrite (bind_run _ _ _ _ _ (RemoveAll_present h s m sl Hm Hne Hall)).
    + eapply deref_update_sub; [done | set_solver].
Qed.

(** X7. [HasAllOf] leaves the store and answers true exactly when every entry
    of the slice is in the set; in particular it is true on a nil or empty
    slice, whatever the set. *)
Theorem HasAllOf_spec h s m sl :
  deref h s = Some m →
  ∃ b, HasAllOf s sl h = Some (b, h)
     ∧ (b = true ↔ ∀ x, x ∈ slice_items sl → x ∈ m)
     ∧ (slice_items sl = [] → b = true).
Proof.
  intros Hm. exists (bool_decide (Forall (.∈ m) (slice_items sl))).
  split_and!.
  - by apply HasAllOf_run.
  - by rewrite bool_decide_eq_true, Forall_forall.
  - intros ->. by apply bool_decide_eq_true_2.
Qed.

(** X8. [AddAll] on an allocated receiver returns the receiver, which then
    holds its old elements and the entries of the slice; [Size] has grown by
    at most the number of distinct entries; a nil or empty slice leaves the
    store unchanged; no other object is written. *)
Theorem AddAll_spec h l m sl :
  h !! l = Some m →
  ∃ h', AddAll (SetAt l) sl h = Some (SetAt l, h')
      ∧ (∀ x, Has (SetAt l) x h'
              = Some (bool_decide (x ∈ slice_items sl ∨ x ∈ m), h'))
      ∧ (∃ n, Size (SetAt l) h' = Some (n, h')
            ∧ size m ≤ n ≤ size m + length (remove_dups (slice_items sl)))
      ∧ (slice_items sl = [] → h' = h)
      ∧ ∀ s', s' ≠ SetAt l → deref h' s' = deref h s'.
Proof.
  intros Hm. exists (<[l := list_to_set (slice_items sl) ∪ m]> h).
  pose proof (deref_insert_eq h l (list_to_set (slice_items sl) ∪ m)) as Hm'.
  split_and!.
  - by apply AddAll_run.
  - intros x. rewrite (Has_run _ _ _ x Hm'). do 2 f_equal.
    apply bool_decide_ext. set_solver.
  - eexists. split; [by apply Size_run |]. split.
    + apply subseteq_size. set_solver.
    + rewrite <-size_list_to_set_dups, (comm_L (∪)), size_union_alt.
      apply Nat.add_le_mono_l, subseteq_size. set_solver.
  - intros ->. simpl. rewrite union_empty_l_L. by apply insert_id.
  - intros s' Hs'. by apply deref_insert_ne.
Qed.

(** X9. [AddAll] on the nil receiver returns (the nil receiver, in the same
    store) when the slice is nil or empty, and panics otherwise. *)
Theorem AddAll_nil_receiver h sl :
  (slice_items sl = [] → AddAll NilSet sl h = Some (NilSet, h))
  ∧ (slice_items sl ≠ [] → AddAll NilSet sl h = None).
Proof.
  unfold AddAll. destruct (slice_items sl) as [|v vs]; split; done.
Qed.

(** X10. The nil set reads as the empty set and cannot be written: [Has] is
    false, [Size] is 0, [ToSlice] is an empty (non-nil) slice, [Remove]
    reports the element as not found, [RemoveAll] of a non-empty slice
    reports that not all are present, [Clear] returns; [Add] panics. *)
Theorem nil_receiver h e sl :
  Has NilSet e h = Some (false, h)
  ∧ Size NilSet h = Some (0, h)
  ∧ ToSlice NilSet h = Some (Some [], h)
  ∧ Remove NilSet e h = Some (Some (ErrNotFound e), h)
  ∧ (slice_items sl ≠ [] →
       RemoveAll NilSet sl h = Some (Some ErrNotAllPresent, h))
  ∧ Clear NilSet h = Some (NilSet, h)
  ∧ Add NilSet e h = None.
Proof.
  assert (deref h NilSet = Some (∅ : gset T)) as Hnil by done.
  split_and!.
  - rewrite (Has_run _ _ _ e Hnil). by rewrite bool_decide_eq_false_2.
  - by rewrite (Size_run _ _ _ Hnil), size_empty.
  - by rewrite (ToSlice_run _ _ _ Hnil), range_keys_empty.
  - by apply (Remove_absent _ _ ∅).
  - intros Hne. apply (RemoveAll_missing _ _ ∅); try done.
    destruct (slice_items sl) as [|v vs]; [done |].
    intros Hall. apply Forall_cons in Hall as [Hv _]. set_solver.
  - by rewrite (Clear_run _ _ _ Hnil).
  - done.
Qed.

(** X11. [ToSlice] leaves the store and returns a non-nil slice that lists
    each element of the set exactly once; its length is [Size]. *)
Theorem ToSlice_spec h s m :
  deref h s = Some m →
  ∃ vs, ToSlice s h = Some (Some vs, h)
      ∧ NoDup vs
      ∧ length vs = size m
      ∧ ∀ x, x ∈ vs ↔ x ∈ m.
Proof.
  intros Hm. exists (range_keys m). split_and!.
  - by apply ToSlice_run.
  - rewrite range_keys_perm. apply NoDup_elements.
  - apply range_keys_length.
  - apply range_keys_elem.
Qed.

(** X14. [NewDiff], which runs its own loop, does what [Copy] followed by the
    in-place [Diff] on the copy does: same result, same store. *)
Theorem NewDiff_Copy_Diff h s o m mo :
  deref h s = Some m → deref h o = Some mo →
  NewDiff s o h = (c <- Copy s; Diff c o) h.
Proof.
  intros Hm Ho. rewrite (NewDiff_run _ _ _ _ _ Hm Ho).
  rewrite (bind_run _ _ _ _ _ (Copy_run _ _ _ Hm)).
  rewrite (Diff_run _ _ o m mo).
  - cbn [update]. by rewrite insert_insert_eq.
  - apply deref_insert_eq.
  - rewrite deref_insert_ne; eauto using deref_fresh_ne.
Qed.

(** X15. [s.IsSubSetOf(o)] and [o.IsSuperSetOf(s)] give the same answer. *)
Theorem IsSubSetOf_IsSuperSetOf_dual h s o m mo :
  deref h s = Some m → deref h o = Some mo →
  IsSubSetOf s o h = IsSuperSetOf o s h.
Proof.
  intros Hm Ho. rewrite (IsSubSetOf_run _ _ _ _ _ Hm Ho).
  by rewrite (IsSuperSetOf_run _ _ _ _ _ Ho Hm).
Qed.

End Collections_facts.

(** ** Facts about the container over keys not equal to themselves *)

Module AnyKey_facts.
Import AnyKey.

Section Facts.
Context {P N : Type} {P_eq : EqDecision P} {P_hash : Countable P}
        {N_eq : EqDecision N} {N_hash : Countable N} {P_zero : Inhabited P}
        {RO : RangeOrder (P := P) (N := N)}.

Abbreviation heap := (gmap loc (@entries P N _ _ _ _)).

Implicit Types (h : heap) (s o : SetT) (l : loc) (c co cc : @entries P N _ _ _ _)
               (k e x : @key P N) (ks vs : list (@key P N)).

Local Notation "y <- p ; q" := (bind p (λ y, q))
  (at level 20, p at level 100, q at level 200, only parsing).

Local Arguments map_assign : simpl never.
Local Arguments map_delete : simpl never.
Local Arguments map_index : simpl never.
Local Arguments map_live : simpl never.
Local Arguments load : simpl never.

Lemma ak_bind_run {A B} (p : M A) (q : A → M B) h a h' :
  p h = Some (a, h') → bind p q h = q a h'.
Proof. intros Hp. unfold bind. by rewrite Hp. Qed.

Lemma ak_bind_panic {A B} (p : M A) (q : A → M B) h :
  p h = None → bind p q h = None.
Proof. intros Hp. unfold bind. by rewrite Hp. Qed.

Lemma ak_bind_bind {A B C} (p : M A) (q : A → M B) (r : B → M C) h :
  bind (bind p q) r h = bind p (λ a, bind (q a) r) h.
Proof. unfold bind. by destruct (p h) as [[a h']|]. Qed.

Lemma ak_bind_ret {A B} (a : A) (q : A → M B) h : bind (ret a) q h = q a h.
Proof. reflexivity. Qed.

Ltac mnorm := repeat (rewrite ak_bind_bind || rewrite ak_bind_ret); cbv beta.
Ltac msimpl :=
  repeat first [rewrite ak_bind_bind | rewrite ak_bind_ret | progress simpl].
Ltac run_bind lem :=
  mnorm; erewrite ak_bind_run; [ | eapply lem; eauto ]; cbv beta; mnorm.

Lemma ak_entries_eq c c' :
  keys c = keys c' → loose c = loose c' → c = c'.
Proof. destruct c, c'. simpl. by intros -> ->. Qed.

Lemma ak_load_run h s c : deref h s = Some c → load s h = Some (c, h).
Proof.
  unfold load. destruct s; simpl; intros Hc; simplify_eq; [done |].
  by rewrite Hc.
Qed.

Lemma ak_map_index_run h s c k :
  deref h s = Some c → map_index s k h = Some (has c k, h).
Proof. intros Hc. unfold map_index. by run_bind ak_load_run. Qed.

Lemma ak_map_live_run h s c k :
  deref h s = Some c → map_live s k h = Some (live c k, h).
Proof. intros Hc. unfold map_live. by run_bind ak_load_run. Qed.

Lemma ak_deref_insert_eq h l c : deref (<[l := c]> h) (SetAt l) = Some c.
Proof. simpl. apply lookup_insert_eq. Qed.

Lemma ak_deref_insert_ne h l c s :
  s ≠ SetAt l → deref (<[l := c]> h) s = deref h s.
Proof.
  destruct s as [|l']; [done |]. intros Hne. simpl.
  apply lookup_insert_ne. congruence.
Qed.

Lemma ak_update_id h s c : deref h s = Some c → update s c h = h.
Proof. destruct s; [done |]. simpl. apply insert_id. Qed.

Lemma ak_update_update h s c c' : update s c' (update s c h) = update s c' h.
Proof. destruct s; [done |]. simpl. apply insert_insert_eq. Qed.

Lemma ak_deref_update_ne h s s' c :
  s' ≠ s → deref (update s c h) s' = deref h s'.
Proof. destruct s; [done |]. simpl. apply ak_deref_insert_ne. Qed.

(** Writing to the nil set changes nothing, and the nil set is empty: the
    lemma covers contents that are part of the old ones. *)
Lemma ak_deref_update_sub h s c c' :
  deref h s = Some c → keys c' ⊆ keys c → loose c' ⊆ loose c →
  deref (update s c' h) s = Some c'.
Proof.
  destruct s as [|l]; simpl; intros Hc Hk Hl.
  - simplify_eq. simpl in *. f_equal. apply ak_entries_eq; simpl.
    + set_solver.
    + multiset_solver.
  - apply lookup_insert_eq.
Qed.

Lemma ak_fresh_loc_None h : h !! fresh (dom h) = None.
Proof. apply not_elem_of_dom, is_fresh. Qed.

Lemma ak_deref_fresh_ne h s c : deref h s = Some c → s ≠ SetAt (fresh (dom h)).
Proof. intros Hc ->. simpl in Hc. by rewrite ak_fresh_loc_None in Hc. Qed.

Lemma ak_del_absent c k : has c k = false → del c k = c.
Proof.
  destruct k as [p | n]; simpl; [| done]. intros Hp%bool_decide_eq_false.
  apply ak_entries_eq; simpl; [set_solver | done].
Qed.

Lemma ak_Has_run h s c e :
  deref h s = Some c → Has s e h = Some (has c e, h).
Proof.
  intros Hc. unfold Has. run_bind ak_map_index_run. by destruct (has c e).
Qed.

Lemma ak_Size_run h s c : deref h s = Some c → Size s h = Some (len c, h).
Proof. intros Hc. unfold Size, map_len. by run_bind ak_load_run. Qed.

Lemma ak_map_delete_run h s c k :
  deref h s = Some c → map_delete s k h = Some ((), update s (del c k) h).
Proof.
  intros Hc. destruct s as [|l]; [done |]. unfold map_delete.
  by run_bind ak_load_run.
Qed.

Lemma ak_map_assign_run h l c k :
  h !! l = Some c → map_assign (SetAt l) k h = Some ((), <[l := put c k]> h).
Proof.
  intros Hc. unfold map_assign.
  by rewrite (ak_bind_run _ _ _ _ _ (ak_load_run _ (SetAt l) _ Hc)).
Qed.

Lemma ak_Add_run h l c e :
  h !! l = Some c → Add (SetAt l) e h = Some (SetAt l, <[l := put c e]> h).
Proof. intros Hc. unfold Add. by run_bind ak_map_assign_run. Qed.

Lemma ak_Remove_run h s c e :
  deref h s = Some c →
  Remove s e h
  = Some (if has c e then None else Some (ErrNotFound e),
          update s (del c e) h).
Proof.
  intros Hc. unfold Remove. run_bind ak_Has_run.
  destruct (has c e) eqn:He; simpl.
  - by run_bind ak_map_delete_run.
  - by rewrite (ak_del_absent _ _ He), (ak_update_id _ _ _ Hc).
Qed.

(** *** The entries a loop ranges over *)

Lemma ak_lefts_listing c : lefts (listing c) = elements (keys c).
Proof.
  unfold lefts, listing.
  generalize (elements (keys c)) (elements (loose c)). intros ps ns.
  induction ps as [|p ps IH]; simpl.
  - induction ns as [|n ns IH]; simpl; done.
  - f_equal. apply IH.
Qed.

Lemma ak_rights_listing c : rights (listing c) = elements (loose c).
Proof.
  unfold rights, listing.
  generalize (elements (keys c)) (elements (loose c)). intros ps ns.
  induction ps as [|p ps IH]; simpl; [| apply IH].
  induction ns as [|n ns IH]; simpl; [done |]. f_equal. apply IH.
Qed.

Lemma ak_list_to_set_disj_elements (X : gmultiset N) :
  list_to_set_disj (elements X) = X.
Proof.
  induction X as [|n X IH] using gmultiset_ind.
  - by rewrite gmultiset_elements_empty.
  - rewrite gmultiset_elements_disj_union, gmultiset_elements_singleton.
    simpl. by rewrite IH.
Qed.

Lemma ak_range_keys_lefts c : list_to_set (lefts (range_keys c)) = keys c.
Proof.
  unfold lefts. rewrite range_keys_perm. fold (lefts (listing c)).
  rewrite ak_lefts_listing. apply list_to_set_elements_L.
Qed.

Lemma ak_range_keys_rights c :
  list_to_set_disj (rights (range_keys c)) = loose c.
Proof.
  unfold rights. rewrite range_keys_perm. fold (rights (listing c)).
  rewrite ak_rights_listing. apply ak_list_to_set_disj_elements.
Qed.

Lemma ak_elem_of_listing c k : k ∈ listing c ↔ entry c k.
Proof.
  unfold listing. rewrite elem_of_app, !list_elem_of_fmap.
  destruct k as [p | n]; simpl.
  - rewrite <-elem_of_elements. naive_solver.
  - rewrite <-gmultiset_elem_of_elements. naive_solver.
Qed.

Lemma ak_range_keys_entry c k : k ∈ range_keys c ↔ entry c k.
Proof. rewrite range_keys_perm. apply ak_elem_of_listing. Qed.

Lemma ak_range_keys_Forall c : Forall (entry c) (range_keys c).
Proof. apply Forall_forall. intros k. by rewrite ak_range_keys_entry. Qed.

Lemma ak_range_keys_length c : length (range_keys c) = len c.
Proof.
  rewrite range_keys_perm. unfold listing, len.
  by rewrite length_app, !length_fmap.
Qed.

Lemma ak_len_0 c : len c = 0 ↔ c = Entries ∅ ∅.
Proof.
  unfold len. split.
  - intros Hlen. apply ak_entries_eq; simpl.
    + apply leibniz_equiv, size_empty_iff. lia.
    + apply gmultiset_size_empty_iff. lia.
  - intros ->. simpl. by rewrite ?size_empty, ?gmultiset_size_empty.
Qed.

Lemma ak_range_keys_empty : range_keys (Entries (∅ : gset P) ∅) = [].
Proof.
  apply length_zero_iff_nil. rewrite ak_range_keys_length.
  by apply ak_len_0.
Qed.

Lemma ak_entry_live c k : entry c k → live c k = true.
Proof.
  destruct k as [p | n]; simpl; [| done]. apply bool_decide_eq_true_2.
Qed.

Lemma ak_for_map_run {A R} (body : key → A → M (ctl A R)) h s c a :
  deref h s = Some c →
  for_map s body a h
  = for_range (λ k a, live <- map_live s k;
                      if live then body k a else ret (Next a))
              (range_keys c) a h.
Proof. intros Hc. unfold for_map. by run_bind ak_load_run. Qed.

Lemma ak_nil_or_empty_run h s c :
  deref h s = Some c → nil_or_empty s h = Some (len c =? 0, h).
Proof.
  intros Hc. unfold nil_or_empty. destruct s as [|l]; simpl in *.
  - simplify_eq. unfold len. simpl.
    by rewrite ?size_empty, ?gmultiset_size_empty.
  - by run_bind ak_Size_run.
Qed.

(** *** [Copy], [Intersect] and [NewIntersect] *)

Lemma ak_Copy_loop ks : ∀ h s l c cc,
  deref h s = Some c → h !! l = Some cc → s ≠ SetAt l →
  Forall (entry c) ks →
  for_range (R := Empty_set)
    (λ k a, live <- map_live s k;
            if live then _ <- map_assign (SetAt l) k; ret (Next ())
            else ret (Next a)) ks () h
  = Some (Next (),
          <[l := Entries (list_to_set (lefts ks) ∪ keys cc)
                         (list_to_set_disj (rights ks) ⊎ loose cc)]> h).
Proof.
  induction ks as [|k ks IH]; intros h s l c cc Hc Hcc Hne Hks;
    cbn [for_range].
  - unfold ret. rewrite insert_id; [done |]. rewrite Hcc. f_equal.
    apply ak_entries_eq; simpl; [set_solver | multiset_solver].
  - apply Forall_cons in Hks as [Hk Hks].
    run_bind ak_map_live_run. rewrite (ak_entry_live _ _ Hk).
    run_bind ak_map_assign_run.
    rewrite (IH _ s l c (put cc k)); try done.
    + rewrite insert_insert_eq. do 3 f_equal.
      destruct k as [p | n]; apply ak_entries_eq; simpl;
        set_solver || multiset_solver.
    + by rewrite ak_deref_insert_ne.
    + apply lookup_insert_eq.
Qed.

Lemma ak_Copy_run h s c :
  deref h s = Some c →
  Copy s h = Some (SetAt (fresh (dom h)), <[fresh (dom h) := c]> h).
Proof.
  intros Hc. unfold Copy. pose proof (ak_deref_fresh_ne _ _ _ Hc) as Hne.
  set (l := fresh (dom h)) in *.
  rewrite (ak_bind_run _ _ h (SetAt l) (<[l := Entries ∅ ∅]> h)) by done.
  assert (deref (<[l := Entries ∅ ∅]> h) s = Some c) as Hc'
    by by rewrite ak_deref_insert_ne.
  mnorm. erewrite ak_bind_run;
    [| rewrite (ak_for_map_run _ _ _ _ _ Hc');
       eapply (ak_Copy_loop _ _ s l c (Entries ∅ ∅));
       eauto using ak_range_keys_Forall; apply lookup_insert_eq ].
  unfold ret. rewrite insert_insert_eq. do 3 f_equal.
  apply ak_entries_eq; simpl.
  - rewrite ak_range_keys_lefts. set_solver.
  - rewrite ak_range_keys_rights. multiset_solver.
Qed.

(** The loop of [Intersect] removes through [Remove], whose [Has] guard
    never holds of a key that is not equal to itself. *)
Lemma ak_Intersect_loop ks : ∀ h l o c co,
  h !! l = Some c → deref h o = Some co → o ≠ SetAt l →
  for_range (R := Empty_set)
    (λ k a, live <- map_live (SetAt l) k;
            if live
            then has <- Has o k;
                 if negb has then _ <- Remove (SetAt l) k; ret (Next ())
                 else ret (Next ())
            else ret (Next a)) ks () h
  = Some (Next (),
          <[l := Entries (keys c ∖ (list_to_set (lefts ks) ∖ keys co))
                         (loose c)]> h).
Proof.
  induction ks as [|k ks IH]; intros h l o c co Hc Ho Hne; cbn [for_range].
  - unfold ret. rewrite insert_id; [done |]. rewrite Hc. f_equal.
    apply ak_entries_eq; simpl; [set_solver | done].
  - run_bind ak_map_live_run. destruct k as [p | n]; cbn [live].
    + destruct (decide (p ∈ keys c)) as [Hp | Hp].
      * rewrite (bool_decide_eq_true_2 _ Hp). run_bind ak_Has_run.
        simpl has. destruct (decide (p ∈ keys co)) as [Hin | Hout].
        -- rewrite (bool_decide_eq_true_2 _ Hin). msimpl.
           rewrite (IH _ l o c co) by done. do 3 f_equal.
           apply ak_entries_eq; simpl; [set_solver | done].
        -- rewrite (bool_decide_eq_false_2 _ Hout). cbn [negb].
           run_bind ak_Remove_run. simpl has.
           cbn [update del].
           rewrite (IH _ l o (Entries (keys c ∖ {[p]}) (loose c)) co).
           ++ rewrite insert_insert_eq. do 3 f_equal.
              apply ak_entries_eq; simpl; [set_solver | done].
           ++ apply lookup_insert_eq.
           ++ by rewrite ak_deref_insert_ne.
           ++ done.
      * rewrite (bool_decide_eq_false_2 _ Hp). msimpl.
        rewrite (IH _ l o c co) by done. do 3 f_equal.
        apply ak_entries_eq; simpl; [set_solver | done].
    + run_bind ak_Has_run. simpl has. cbn [negb].
      run_bind ak_Remove_run. simpl has. cbn [update del].
      rewrite insert_id by done. by rewrite (IH _ l o c co).
Qed.

Lemma ak_Intersect_loop_alias ks : ∀ h l c,
  h !! l = Some c →
  for_range (R := Empty_set)
    (λ k a, live <- map_live (SetAt l) k;
            if live
            then has <- Has (SetAt l) k;
                 if negb has then _ <- Remove (SetAt l) k; ret (Next ())
                 else ret (Next ())
            else ret (Next a)) ks () h
  = Some (Next (), h).
Proof.
  induction ks as [|k ks IH]; intros h l c Hc; cbn [for_range]; [done |].
  run_bind ak_map_live_run. destruct k as [p | n]; cbn [live].
  - destruct (decide (p ∈ keys c)) as [Hp | Hp].
    + rewrite (bool_decide_eq_true_2 _ Hp). run_bind ak_Has_run.
      simpl has. rewrite (bool_decide_eq_true_2 _ Hp). msimpl. eauto.
    + rewrite (bool_decide_eq_false_2 _ Hp). msimpl. eauto.
  - run_bind ak_Has_run. simpl has. cbn [negb].
    run_bind ak_Remove_run. simpl has. cbn [update del].
    rewrite insert_id by done. eauto.
Qed.

Lemma ak_Intersect_run h s o c co :
  deref h s = Some c → deref h o = Some co →
  Intersect s o h
  = Some (s, update s (if len co =? 0 then c
                       else Entries (keys c ∩ keys co) (loose c)) h).
Proof.
  intros Hc Ho. unfold Intersect. run_bind ak_nil_or_empty_run.
  destruct (len co =? 0) eqn:He.
  { unfold ret. by rewrite ak_update_id. }
  rewrite (ak_bind_run _ _ h (Next ())
             (update s (Entries (keys c ∩ keys co) (loose c)) h)); [done |].
  rewrite (ak_for_map_run _ _ _ _ _ Hc). destruct s as [|l].
  - simpl in Hc. simplify_eq. by rewrite ak_range_keys_empty.
  - cbn [update]. destruct (decide (o = SetAt l)) as [-> | Hne].
    + simpl in Hc, Ho. assert (co = c) as -> by congruence.
      rewrite (ak_Intersect_loop_alias _ _ _ _ Hc). do 2 f_equal.
      symmetry. apply insert_id. rewrite Hc. f_equal.
      apply ak_entries_eq; simpl; [set_solver | done].
    + rewrite (ak_Intersect_loop _ _ _ _ _ _ Hc Ho Hne). do 3 f_equal.
      apply ak_entries_eq; simpl; [| done]. rewrite ak_range_keys_lefts.
      apply set_eq. intros x. rewrite elem_of_difference,
        elem_of_difference, elem_of_intersection.
      destruct (decide (x ∈ keys co)); tauto.
Qed.

Lemma ak_NewIntersect_run h s o c co :
  deref h s = Some c → deref h o = Some co →
  NewIntersect s o h
  = Some (SetAt (fresh (dom h)),
          <[fresh (dom h) := if len co =? 0 then c
                             else Entries (keys c ∩ keys co) (loose c)]> h).
Proof.
  intros Hc Ho. unfold NewIntersect. run_bind ak_Copy_run.
  rewrite (ak_Intersect_run _ _ o c co).
  - cbn [update]. by rewrite insert_insert_eq.
  - apply ak_deref_insert_eq.
  - rewrite ak_deref_insert_ne; eauto using ak_deref_fresh_ne.
Qed.

(** *** The other operations *)

Lemma ak_Clear_loop ks : ∀ h l c,
  h !! l = Some c →
  for_range (R := Empty_set)
    (λ k a, live <- map_live (SetAt l) k;
            if live then _ <- map_delete (SetAt l) k; ret (Next ())
            else ret (Next a)) ks () h
  = Some (Next (),
          <[l := Entries (keys c ∖ list_to_set (lefts ks)) (loose c)]> h).
Proof.
  induction ks as [|k ks IH]; intros h l c Hc; cbn [for_range].
  - unfold ret. rewrite insert_id; [done |]. rewrite Hc. f_equal.
    apply ak_entries_eq; simpl; [set_solver | done].
  - run_bind ak_map_live_run. destruct k as [p | n]; cbn [live].
    + destruct (decide (p ∈ keys c)) as [Hp | Hp].
      * rewrite (bool_decide_eq_true_2 _ Hp). run_bind ak_map_delete_run.
        cbn [update del].
        rewrite (IH _ l (Entries (keys c ∖ {[p]}) (loose c)))
          by apply lookup_insert_eq.
        rewrite insert_insert_eq. do 3 f_equal.
        apply ak_entries_eq; simpl; [set_solver | done].
      * rewrite (bool_decide_eq_false_2 _ Hp). msimpl.
        rewrite (IH _ l c Hc). do 3 f_equal.
        apply ak_entries_eq; simpl; [set_solver | done].
    + run_bind ak_map_delete_run. cbn [update del].
      rewrite insert_id by done. by rewrite (IH _ l c Hc).
Qed.

Lemma ak_Clear_run h s c :
  deref h s = Some c →
  Clear s h = Some (s, update s (Entries ∅ (loose c)) h).
Proof.
  intros Hc. unfold Clear.
  rewrite (ak_bind_run _ _ h (Next ()) (update s (Entries ∅ (loose c)) h));
    [done |].
  rewrite (ak_for_map_run _ _ _ _ _ Hc). destruct s as [|l].
  - simpl in Hc. simplify_eq. by rewrite ak_range_keys_empty.
  - rewrite (ak_Clear_loop _ _ _ c Hc). cbn [update]. do 3 f_equal.
    apply ak_entries_eq; simpl; [| done]. rewrite ak_range_keys_lefts.
    set_solver.
Qed.

Lemma ak_Diff_loop ks : ∀ h s o c co,
  deref h s = Some c → deref h o = Some co → o ≠ s →
  Forall (entry co) ks →
  for_range (R := Empty_set)
    (λ k a, live <- map_live o k;
            if live then _ <- Remove s k; ret (Next ())
            else ret (Next a)) ks () h
  = Some (Next (),
          update s (Entries (keys c ∖ list_to_set (lefts ks)) (loose c)) h).
Proof.
  induction ks as [|k ks IH]; intros h s o c co Hc Ho Hne Hks;
    cbn [for_range].
  - unfold ret. rewrite ak_update_id; [done |]. rewrite Hc. f_equal.
    apply ak_entries_eq; simpl; [set_solver | done].
  - apply Forall_cons in Hks as [Hk Hks].
    run_bind ak_map_live_run. rewrite (ak_entry_live _ _ Hk).
    run_bind ak_Remove_run.
    rewrite (IH _ s o (del c k) co); try done.
    + rewrite ak_update_update. do 3 f_equal.
      destruct k as [p | n]; apply ak_entries_eq; simpl; set_solver.
    + eapply ak_deref_update_sub; [done | |];
        destruct k as [p | n]; simpl; set_solver.
    + by rewrite ak_deref_update_ne.
Qed.

Lemma ak_Diff_loop_alias ks : ∀ h l c,
  h !! l = Some c →
  for_range (R := Empty_set)
    (λ k a, live <- map_live (SetAt l) k;
            if live then _ <- Remove (SetAt l) k; ret (Next ())
            else ret (Next a)) ks () h
  = Some (Next (),
          <[l := Entries (keys c ∖ list_to_set (lefts ks)) (loose c)]> h).
Proof.
  induction ks as [|k ks IH]; intros h l c Hc; cbn [for_range].
  - unfold ret. rewrite insert_id; [done |]. rewrite Hc. f_equal.
    apply ak_entries_eq; simpl; [set_solver | done].
  - run_bind ak_map_live_run. destruct k as [p | n]; cbn [live].
    + destruct (decide (p ∈ keys c)) as [Hp | Hp].
      * rewrite (bool_decide_eq_true_2 _ Hp). run_bind ak_Remove_run.
        cbn [update del].
        rewrite (IH _ l (Entries (keys c ∖ {[p]}) (loose c)))
          by apply lookup_insert_eq.
        rewrite insert_insert_eq. do 3 f_equal.
        apply ak_entries_eq; simpl; [set_solver | done].
      * rewrite (bool_decide_eq_false_2 _ Hp). msimpl.
        rewrite (IH _ l c Hc). do 3 f_equal.
        apply ak_entries_eq; simpl; [set_solver | done].
    + run_bind ak_Remove_run. cbn [update del].
      rewrite insert_id by done. by rewrite (IH _ l c Hc).
Qed.

Lemma ak_Diff_run h s o c co :
  deref h s = Some c → deref h o = Some co →
  Diff s o h = Some (s, update s (Entries (keys c ∖ keys co) (loose c)) h).
Proof.
  intros Hc Ho. unfold Diff.
  rewrite (ak_bind_run _ _ h (Next ())
             (update s (Entries (keys c ∖ keys co) (loose c)) h)); [done |].
  rewrite (ak_for_map_run _ _ _ _ _ Ho).
  destruct (decide (o = s)) as [-> | Hne].
  - assert (co = c) as -> by congruence. destruct s as [|l].
    + simpl in Hc. simplify_eq. by rewrite ak_range_keys_empty.
    + by rewrite (ak_Diff_loop_alias _ _ _ c Hc), ak_range_keys_lefts.
  - rewrite (ak_Diff_loop _ _ s o c co) by eauto using ak_range_keys_Forall.
    by rewrite ak_range_keys_lefts.
Qed.

Lemma ak_Union_loop ks : ∀ h l o c co,
  h !! l = Some c → deref h o = Some co → o ≠ SetAt l →
  Forall (entry co) ks →
  for_range (R := Empty_set)
    (λ k a, live <- map_live o k;
            if live then _ <- Add (SetAt l) k; ret (Next ())
            else ret (Next a)) ks () h
  = Some (Next (),
          <[l := Entries (list_to_set (lefts ks) ∪ keys c)
                         (list_to_set_disj (rights ks) ⊎ loose c)]> h).
Proof.
  induction ks as [|k ks IH]; intros h l o c co Hc Ho Hne Hks;
    cbn [for_range].
  - unfold ret. rewrite insert_id; [done |]. rewrite Hc. f_equal.
    apply ak_entries_eq; simpl; [set_solver | multiset_solver].
  - apply Forall_cons in Hks as [Hk Hks].
    run_bind ak_map_live_run. rewrite (ak_entry_live _ _ Hk).
    run_bind ak_Add_run.
    rewrite (IH _ l o (put c k) co); try done.
    + rewrite insert_insert_eq. do 3 f_equal.
      destruct k as [p | n]; apply ak_entries_eq; simpl;
        set_solver || multiset_solver.
    + apply lookup_insert_eq.
    + by rewrite ak_deref_insert_ne.
Qed.

(** [Union] with another set.  (For [s.Union(s)] on a set with elements not
    equal to themselves the loop adds entries to the map it ranges over, and
    Go leaves open whether it reaches them.) *)
Lemma ak_Union_run h l o c co :
  h !! l = Some c → deref h o = Some co → o ≠ SetAt l →
  Union (SetAt l) o h
  = Some (SetAt l,
          <[l := Entries (keys c ∪ keys co) (loose c ⊎ loose co)]> h).
Proof.
  intros Hc Ho Hne. unfold Union. run_bind ak_nil_or_empty_run.
  destruct (len co =? 0) eqn:He.
  - apply Nat.eqb_eq, ak_len_0 in He. subst co. unfold ret.
    rewrite insert_id; [done |]. rewrite Hc. f_equal.
    apply ak_entries_eq; simpl; [set_solver | multiset_solver].
  - erewrite ak_bind_run;
      [| rewrite (ak_for_map_run _ _ _ _ _ Ho);
         eapply ak_Union_loop; eauto using ak_range_keys_Forall ].
    unfold ret. do 3 f_equal. apply ak_entries_eq; simpl.
    + rewrite ak_range_keys_lefts. set_solver.
    + rewrite ak_range_keys_rights. multiset_solver.
Qed.

Lemma ak_subset_loop ks : ∀ h src tgt cs ct,
  deref h src = Some cs → deref h tgt = Some ct → Forall (entry cs) ks →
  for_range
    (λ k a, live <- map_live src k;
            if live
            then has <- Has tgt k;
                 if negb has then ret (Return false) else ret (Next ())
            else ret (Next a)) ks () h
  = Some (if forallb (has ct) ks then Next () else Return false, h).
Proof.
  induction ks as [|k ks IH]; intros h src tgt cs ct Hs Ht Hks;
    cbn [for_range forallb]; [done |].
  apply Forall_cons in Hks as [Hk Hks].
  run_bind ak_map_live_run. rewrite (ak_entry_live _ _ Hk).
  run_bind ak_Has_run. destruct (has ct k); msimpl; [| done].
  by rewrite (IH _ src tgt cs ct).
Qed.

(** Every entry of [cs] is found in [ct]: the keys of [cs] are keys of [ct]
    and [cs] has no element that is not equal to itself. *)
Lemma ak_forallb_has cs ct :
  forallb (has ct) (range_keys cs) = true
  ↔ keys cs ⊆ keys ct ∧ loose cs = ∅.
Proof.
  rewrite forallb_forall. setoid_rewrite <-list_elem_of_In.
  setoid_rewrite ak_range_keys_entry. split.
  - intros Hall. split.
    + intros p Hp. specialize (Hall (inl p) Hp). simpl in Hall.
      by apply bool_decide_eq_true in Hall.
    + apply gmultiset_eq. intros n. rewrite multiplicity_empty.
      destruct (decide (n ∈ loose cs)) as [Hn | Hn].
      * by specialize (Hall (inr n) Hn).
      * unfold elem_of, gmultiset_elem_of in Hn. lia.
  - intros [Hk Hl] [p | n] Hx; simpl in *.
    + apply bool_decide_eq_true_2. set_solver.
    + rewrite Hl in Hx. multiset_solver.
Qed.

Lemma ak_IsSuperSetOf_run h s o c co :
  deref h s = Some c → deref h o = Some co →
  IsSuperSetOf s o h = Some (forallb (has c) (range_keys co), h).
Proof.
  intros Hc Ho. unfold IsSuperSetOf. run_bind ak_nil_or_empty_run.
  destruct (len co =? 0) eqn:He.
  - apply Nat.eqb_eq, ak_len_0 in He. subst co.
    by rewrite ak_range_keys_empty.
  - erewrite ak_bind_run;
      [| rewrite (ak_for_map_run _ _ _ _ _ Ho);
         eapply (ak_subset_loop _ _ o s co c);
         eauto using ak_range_keys_Forall ].
    cbv beta. by destruct (forallb _ _).
Qed.

Lemma ak_IsSubSetOf_run h s o c co :
  deref h s = Some c → deref h o = Some co →
  IsSubSetOf s o h = Some (forallb (has co) (range_keys c), h).
Proof.
  intros Hc Ho. unfold IsSubSetOf. run_bind ak_nil_or_empty_run.
  destruct (len c =? 0) eqn:He.
  - apply Nat.eqb_eq, ak_len_0 in He. subst c.
    by rewrite ak_range_keys_empty.
  - erewrite ak_bind_run;
      [| rewrite (ak_for_map_run _ _ _ _ _ Hc);
         eapply (ak_subset_loop _ _ s o c co);
         eauto using ak_range_keys_Forall ].
    cbv beta. by destruct (forallb _ _).
Qed.

Lemma ak_HasAllOf_run h s c (sl : @slice (@key P N)) :
  deref h s = Some c →
  HasAllOf s sl h = Some (forallb (has c) (slice_items sl), h).
Proof.
  intros Hc. unfold HasAllOf.
  assert (∀ vs, for_range
            (λ v (_ : ()), ok <- map_index s v;
                    if negb ok then ret (Return false) else ret (Next ()))
            vs () h
          = Some (if forallb (has c) vs then Next () else Return false, h))
    as Hloop.
  { induction vs as [|v vs IH]; cbn [for_range forallb]; [done |].
    run_bind ak_map_index_run. destruct (has c v); msimpl; [| done].
    apply IH. }
  rewrite (ak_bind_run _ _ _ _ _ (Hloop _)). by destruct (forallb _ _).
Qed.

Lemma ak_RemoveAll_loop vs : ∀ h s c,
  deref h s = Some c →
  for_range (R := Empty_set)
    (λ v _, _ <- map_delete s v; ret (Next ())) vs () h
  = Some (Next (),
          update s (Entries (keys c ∖ list_to_set (lefts vs)) (loose c)) h).
Proof.
  induction vs as [|v vs IH]; intros h s c Hc; cbn [for_range].
  - unfold ret. rewrite ak_update_id; [done |]. rewrite Hc. f_equal.
    apply ak_entries_eq; simpl; [set_solver | done].
  - run_bind ak_map_delete_run.
    rewrite (IH _ s (del c v)).
    + rewrite ak_update_update. do 3 f_equal.
      destruct v as [p | n]; apply ak_entries_eq; simpl; set_solver.
    + eapply ak_deref_update_sub; [done | |];
        destruct v as [p | n]; simpl; set_solver.
Qed.

Lemma ak_RemoveAll_run h s c (sl : @slice (@key P N)) :
  deref h s = Some c → slice_items sl ≠ [] →
  RemoveAll s sl h
  = if forallb (has c) (slice_items sl)
    then Some (None,
               update s (Entries (keys c ∖ list_to_set (lefts (slice_items sl)))
                                 (loose c)) h)
    else Some (Some ErrNotAllPresent, h).
Proof.
  intros Hc Hne. unfold RemoveAll. rewrite slice_nonempty by done.
  run_bind ak_HasAllOf_run. destruct (forallb _ _); cbn [negb]; [| done].
  by run_bind ak_RemoveAll_loop.
Qed.

Lemma ak_slice_assign_run h (buf : list (@key P N)) i k :
  i < length buf → slice_assign buf i k h = Some (<[i := k]> buf, h).
Proof. intros Hi. unfold slice_assign. by rewrite decide_True. Qed.

Lemma ak_ToSlice_loop ks : ∀ h s c (buf : list (@key P N)) i,
  deref h s = Some c → Forall (entry c) ks → i + length ks ≤ length buf →
  for_range (R := Empty_set)
    (λ k a, live <- map_live s k;
            if live
            then (λ key '(slice, i),
                    slice' <- slice_assign slice i key;
                    ret (Next (slice', S i))) k a
            else ret (Next a)) ks (buf, i) h
  = Some (Next (take i buf ++ ks ++ drop (i + length ks) buf,
                i + length ks), h).
Proof.
  induction ks as [|k ks IH]; intros h s c buf i Hc Hks Hlen;
    cbn [for_range length] in *.
  - unfold ret. rewrite Nat.add_0_r. by rewrite app_nil_l, take_drop.
  - apply Forall_cons in Hks as [Hk Hks].
    run_bind ak_map_live_run. rewrite (ak_entry_live _ _ Hk).
    run_bind ak_slice_assign_run; [| lia].
    rewrite (IH _ s c) by (rewrite ?length_insert; done || lia).
    unfold ret. do 3 f_equal. f_equal; [| lia].
    rewrite (take_S_r _ _ k) by (apply list_lookup_insert_eq; lia).
    rewrite take_insert_ge by done.
    rewrite drop_insert_lt by lia.
    rewrite <-(assoc_L (++)). simpl. by rewrite Nat.add_succ_r.
Qed.

Lemma ak_ToSlice_run h s c :
  deref h s = Some c → ToSlice s h = Some (Some (range_keys c), h).
Proof.
  intros Hc. unfold ToSlice. run_bind ak_Size_run.
  erewrite ak_bind_run;
    [| rewrite (ak_for_map_run _ _ _ _ _ Hc);
       eapply (ak_ToSlice_loop _ _ s c); eauto using ak_range_keys_Forall;
       unfold slice_make; rewrite length_replicate, ak_range_keys_length;
       lia ].
  unfold ret, slice_make. cbn [fall_through fst]. do 3 f_equal.
  rewrite take_0, Nat.add_0_l, drop_ge, app_nil_r; [done |].
  by rewrite length_replicate, ak_range_keys_length.
Qed.

(** *** The claims that depend on how keys compare *)

(** C5, amended.  On an allocated set, after [Add(e)] of an element that is
    equal to itself, [Has(e)] is true and [Size] is one more than before if
    [e] was absent and the same if it was present; a second [Add(e)] leaves
    the set as the first one left it.  For an element that is not equal to
    itself every [Add(e)] makes a new entry: [Has(e)] stays false and [Size]
    grows by one each time.  On the nil set [Add] panics. *)
Theorem Add_any_key h l c e :
  h !! l = Some c →
  (∃ h', Add (SetAt l) e h = Some (SetAt l, h')
       ∧ (self_equal e = true →
            Has (SetAt l) e h' = Some (true, h')
            ∧ Size (SetAt l) h'
              = Some (if has c e then len c else len c + 1, h')
            ∧ (∀ x, x ≠ e → Has (SetAt l) x h' = Some (has c x, h'))
            ∧ Add (SetAt l) e h' = Some (SetAt l, h'))
       ∧ (self_equal e = false →
            Has (SetAt l) e h' = Some (false, h')
            ∧ Size (SetAt l) h' = Some (len c + 1, h')
            ∧ ∃ h'', Add (SetAt l) e h' = Some (SetAt l, h'')
                   ∧ Size (SetAt l) h'' = Some (len c + 2, h'')))
  ∧ Add NilSet e h = None.
Proof.
  intros Hc. split; [| reflexivity]. exists (<[l := put c e]> h).
  pose proof (ak_deref_insert_eq h l (put c e)) as Hc'.
  split; [by apply ak_Add_run |].
  destruct e as [p | n]; (split; [| done || idtac]); try done; intros _.
  - split_and!.
    + rewrite (ak_Has_run _ _ _ _ Hc'). simpl.
      rewrite bool_decide_eq_true_2; [done | set_solver].
    + rewrite (ak_Size_run _ _ _ Hc'). do 2 f_equal. unfold len. simpl.
      case_bool_decide as Hp.
      * do 2 f_equal. set_solver.
      * rewrite size_union, size_singleton by set_solver. lia.
    + intros x Hx. rewrite (ak_Has_run _ _ _ _ Hc'). do 2 f_equal.
      destruct x as [q | m]; simpl; [| done].
      apply bool_decide_ext. set_solver.
    + rewrite (ak_Add_run _ _ _ _ Hc'). rewrite insert_insert_eq.
      do 3 f_equal. apply ak_entries_eq; simpl; [set_solver | done].
  - split_and!.
    + by rewrite (ak_Has_run _ _ _ _ Hc').
    + rewrite (ak_Size_run _ _ _ Hc'). do 2 f_equal. unfold len. simpl.
      rewrite gmultiset_size_disj_union, gmultiset_size_singleton. lia.
    + eexists. split; [by apply ak_Add_run |].
      rewrite (ak_Size_run _ _ _ (ak_deref_insert_eq _ _ _)).
      do 2 f_equal. unfold len. simpl.
      rewrite !gmultiset_size_disj_union, !gmultiset_size_singleton. lia.
Qed.

(** C2, amended.  In-place [Intersect].  When [other] is nil or empty the call
    is a no-op: it returns the receiver and the store is unchanged.  When
    [other] is non-empty it returns the receiver, from which it has removed
    exactly the elements that are equal to themselves and that [other] does
    not hold: afterwards [Has] is true of the receiver exactly for the
    elements it was true of and is true of for [other], and the elements of
    the receiver that are not equal to themselves are all still there.  No
    other object is written. *)
Theorem Intersect_any_key h s o c co :
  deref h s = Some c → deref h o = Some co →
  (o = NilSet ∨ len co = 0 → Intersect s o h = Some (s, h))
  ∧ (len co ≠ 0 →
       ∃ h', Intersect s o h = Some (s, h')
           ∧ deref h' s = Some (Entries (keys c ∩ keys co) (loose c))
           ∧ (∀ x, Has s x h' = Some (has c x && has co x, h'))
           ∧ ∀ s', s' ≠ s → deref h' s' = deref h s').
Proof.
  intros Hc Ho. pose proof (ak_Intersect_run _ _ _ _ _ Hc Ho) as Hrun. split.
  - intros Hempty. assert (len co = 0) as Hlen.
    { destruct Hempty as [-> | Hlen]; [| done]. simpl in Ho.
      simplify_eq. by apply ak_len_0. }
    rewrite Hlen in Hrun. simpl in Hrun. by rewrite ak_update_id in Hrun.
  - intros Hne. apply Nat.eqb_neq in Hne. rewrite Hne in Hrun.
    assert (deref (update s (Entries (keys c ∩ keys co) (loose c)) h) s
            = Some (Entries (keys c ∩ keys co) (loose c))) as Hc'
      by (eapply ak_deref_update_sub; [done | simpl; set_solver | done]).
    eexists. split; [exact Hrun |]. split_and!; try done.
    + intros x. rewrite (ak_Has_run _ _ _ _ Hc'). do 2 f_equal.
      destruct x as [p | n]; simpl; [| done].
      apply eq_true_iff_eq. rewrite andb_true_iff, !bool_decide_eq_true.
      set_solver.
    + intros s' Hs'. by apply ak_deref_update_ne.
Qed.

(** C3, amended.  [NewIntersect] returns a set that did not exist before the
    call and writes nothing else, so the receiver and [other] are as they
    were.  With a nil or empty [other] the new set is a copy of the receiver
    (same elements, same size).  With a non-empty [other] it holds the
    elements of the receiver that are equal to themselves and that [other]
    holds, and all the elements of the receiver that are not equal to
    themselves. *)
Theorem NewIntersect_any_key h s o c co :
  deref h s = Some c → deref h o = Some co →
  ∃ l h', NewIntersect s o h = Some (SetAt l, h')
      ∧ h !! l = None ∧ SetAt l ≠ s ∧ SetAt l ≠ o
      ∧ deref h' s = Some c ∧ deref h' o = Some co
      ∧ (o = NilSet ∨ len co = 0 →
           deref h' (SetAt l) = Some c
           ∧ Size (SetAt l) h' = Some (len c, h')
           ∧ ∀ x, Has (SetAt l) x h' = Some (has c x, h'))
      ∧ (len co ≠ 0 →
           deref h' (SetAt l) = Some (Entries (keys c ∩ keys co) (loose c))
           ∧ ∀ x, Has (SetAt l) x h' = Some (has c x && has co x, h')).
Proof.
  intros Hc Ho. pose proof (ak_NewIntersect_run _ _ _ _ _ Hc Ho) as Hrun.
  pose proof (ak_deref_fresh_ne _ _ _ Hc) as Hs.
  pose proof (ak_deref_fresh_ne _ _ _ Ho) as Hoc.
  pose proof (ak_fresh_loc_None h) as Hl.
  set (l := fresh (dom h)) in *.
  eexists l, _. split; [exact Hrun |]. split_and!; try done.
  - by rewrite ak_deref_insert_ne.
  - by rewrite ak_deref_insert_ne.
  - intros Hempty. assert (len co = 0) as Hlen.
    { destruct Hempty as [-> | Hlen]; [| done]. simpl in Ho.
      simplify_eq. by apply ak_len_0. }
    rewrite Hlen. simpl.
    pose proof (ak_deref_insert_eq h l c) as Hc'. split_and!; [done | |].
    + by apply ak_Size_run.
    + intros x. by apply ak_Has_run.
  - intros Hne. apply Nat.eqb_neq in Hne. rewrite Hne.
    pose proof (ak_deref_insert_eq h l
                  (Entries (keys c ∩ keys co) (loose c))) as Hc'.
    split; [done |]. intros x. rewrite (ak_Has_run _ _ _ _ Hc').
    do 2 f_equal. destruct x as [p | n]; simpl; [| done].
    apply eq_true_iff_eq. rewrite andb_true_iff, !bool_decide_eq_true.
    set_solver.
Qed.

(** *** Further properties, for every key type *)

(** X1. In-place [Diff] returns the receiver, from which it has removed
    exactly the elements that [other] holds; an element that is not equal to
    itself is never removed, so [s.Diff(s)] leaves those and nothing else
    (the empty set when there are none).  No other object is written. *)
Theorem Diff_any_key h s o c co :
  deref h s = Some c → deref h o = Some co →
  ∃ h', Diff s o h = Some (s, h')
      ∧ deref h' s = Some (Entries (keys c ∖ keys co) (loose c))
      ∧ (∀ x, Has s x h' = Some (has c x && negb (has co x), h'))
      ∧ ∀ s', s' ≠ s → deref h' s' = deref h s'.
Proof.
  intros Hc Ho.
  assert (deref (update s (Entries (keys c ∖ keys co) (loose c)) h) s
          = Some (Entries (keys c ∖ keys co) (loose c))) as Hc'
    by (eapply ak_deref_update_sub; [done | simpl; set_solver | done]).
  eexists. split; [by apply ak_Diff_run |]. split_and!; try done.
  - intros x. rewrite (ak_Has_run _ _ _ _ Hc'). do 2 f_equal.
    destruct x as [p | n]; simpl; [| done].
    apply eq_true_iff_eq.
    rewrite andb_true_iff, negb_true_iff, !bool_decide_eq_true,
      bool_decide_eq_false. set_solver.
  - intros s' Hs'. by apply ak_deref_update_ne.
Qed.

(** X4. [Clear] returns the receiver, from which it has removed every element
    that is equal to itself: [Has] is false everywhere afterwards, and
    [Size] is the number of elements not equal to themselves (0 when there
    are none).  No other object is written. *)
Theorem Clear_any_key h s c :
  deref h s = Some c →
  ∃ h', Clear s h = Some (s, h')
      ∧ deref h' s = Some (Entries ∅ (loose c))
      ∧ Size s h' = Some (size (loose c), h')
      ∧ (∀ x, Has s x h' = Some (false, h'))
      ∧ ∀ s', s' ≠ s → deref h' s' = deref h s'.
Proof.
  intros Hc.
  assert (deref (update s (Entries ∅ (loose c)) h) s
          = Some (Entries ∅ (loose c))) as Hc'
    by (eapply ak_deref_update_sub; [done | simpl; set_solver | done]).
  eexists. split; [by apply ak_Clear_run |]. split_and!; try done.
  - rewrite (ak_Size_run _ _ _ Hc'). unfold len. simpl.
    by rewrite ?size_empty.
  - intros x. rewrite (ak_Has_run _ _ _ _ Hc'). do 2 f_equal.
    destruct x as [p | n]; simpl; [| done].
    by apply bool_decide_eq_false_2.
  - intros s' Hs'. by apply ak_deref_update_ne.
Qed.


(** X13. [s.RemoveAll(s.ToSlice())] fails with [ErrEmptyInput] on an empty
    set, fails with [ErrNotAllPresent] and removes nothing on a set with an
    element that is not equal to itself, and empties every other set. *)
Theorem RemoveAll_ToSlice_any_key h s c :
  deref h s = Some c →
  ∃ sl, ToSlice s h = Some (sl, h)
      ∧ (len c = 0 → RemoveAll s sl h = Some (Some ErrEmptyInput, h))
      ∧ (loose c ≠ ∅ → RemoveAll s sl h = Some (Some ErrNotAllPresent, h))
      ∧ (len c ≠ 0 → loose c = ∅ →
           ∃ h', RemoveAll s sl h = Some (None, h')
               ∧ Size s h' = Some (0, h')).
Proof.
  intros Hc. exists (Some (range_keys c)).
  assert (len c ≠ 0 → slice_items (Some (range_keys c)) ≠ []) as Hne.
  { intros Hlen Hnil. apply Hlen. rewrite <-ak_range_keys_length.
    simpl in Hnil. by rewrite Hnil. }
  split_and!.
  - by apply ak_ToSlice_run.
  - intros Hlen. unfold RemoveAll, slice_len. simpl.
    by rewrite ak_range_keys_length, Hlen.
  - intros Hloose. rewrite (ak_RemoveAll_run _ _ c).
    + simpl. destruct (forallb _ _) eqn:Hall; [| done].
      apply ak_forallb_has in Hall as [_ Hall]. done.
    + done.
    + apply Hne. unfold len. intros Hlen.
      apply Hloose, gmultiset_size_empty_iff. lia.
  - intros Hlen Hloose. rewrite (ak_RemoveAll_run _ _ c) by auto. simpl.
    rewrite (proj2 (ak_forallb_has c c)) by done.
    assert (deref (update s (Entries ∅ ∅) h) s = Some (Entries ∅ ∅)) as Hc'
      by (eapply ak_deref_update_sub; [done | simpl; set_solver |
                                       simpl; multiset_solver]).
    exists (update s (Entries ∅ ∅) h). split.
    + do 3 f_equal. apply ak_entries_eq; simpl; [| done].
      rewrite ak_range_keys_lefts. set_solver.
    + by rewrite (ak_Size_run _ _ _ Hc').
Qed.

(** X16. After [s.Union(o)] with another set [o], [s.IsSuperSetOf(o)] and
    [o.IsSubSetOf(s)] are true exactly when [o] has no element that is not
    equal to itself: such an element was added to [s], but [Has] does not
    find it there. *)
Theorem Union_IsSuperSetOf_any_key h l o c co :
  h !! l = Some c → deref h o = Some co → o ≠ SetAt l →
  ∃ h', Union (SetAt l) o h = Some (SetAt l, h')
      ∧ IsSuperSetOf (SetAt l) o h' = Some (bool_decide (loose co = ∅), h')
      ∧ IsSubSetOf o (SetAt l) h' = Some (bool_decide (loose co = ∅), h').
Proof.
  intros Hc Ho Hne.
  set (c' := Entries (keys c ∪ keys co) (loose c ⊎ loose co)).
  pose proof (ak_deref_insert_eq h l c') as Hc'.
  assert (deref (<[l := c']> h) o = Some co) as Ho'
    by by rewrite ak_deref_insert_ne.
  assert (forallb (has c') (range_keys co) = bool_decide (loose co = ∅))
    as Hall.
  { apply eq_true_iff_eq. rewrite ak_forallb_has, bool_decide_eq_true.
    subst c'. simpl. set_solver. }
  exists (<[l := c']> h). split_and!.
  - by apply ak_Union_run.
  - by rewrite (ak_IsSuperSetOf_run _ _ _ _ _ Hc' Ho'), Hall.
  - by rewrite (ak_IsSubSetOf_run _ _ _ _ _ Ho' Hc'), Hall.
Qed.

(** X17. After [s.Intersect(o)] with a non-empty [o], [s.IsSubSetOf(o)] is
    true exactly when [s] has no element that is not equal to itself: such
    an element is never removed and [o.Has] does not find it.  With a nil or
    empty [o] nothing was removed, and [s.IsSubSetOf(o)] is true exactly when
    [s] is empty. *)
Theorem Intersect_IsSubSetOf_any_key h s o c co :
  deref h s = Some c → deref h o = Some co →
  ∃ h', Intersect s o h = Some (s, h')
      ∧ (len co ≠ 0 →
           IsSubSetOf s o h' = Some (bool_decide (loose c = ∅), h'))
      ∧ (len co = 0 → IsSubSetOf s o h' = Some (len c =? 0, h')).
Proof.
  intros Hc Ho. pose proof (ak_Intersect_run _ _ _ _ _ Hc Ho) as Hrun.
  eexists. split; [exact Hrun |]. split; intros Hlen.
  - apply Nat.eqb_neq in Hlen. rewrite Hlen.
    set (c' := Entries (keys c ∩ keys co) (loose c)).
    assert (deref (update s c' h) s = Some c') as Hc'
      by (eapply ak_deref_update_sub; [done | simpl; set_solver | done]).
    destruct (decide (o = s)) as [-> | Hne].
    + rewrite (ak_IsSubSetOf_run _ _ _ _ _ Hc' Hc'). do 2 f_equal.
      apply eq_true_iff_eq. rewrite ak_forallb_has, bool_decide_eq_true.
      subst c'. simpl. set_solver.
    + assert (deref (update s c' h) o = Some co) as Ho'
        by by rewrite ak_deref_update_ne.
      rewrite (ak_IsSubSetOf_run _ _ _ _ _ Hc' Ho'). do 2 f_equal.
      apply eq_true_iff_eq. rewrite ak_forallb_has, bool_decide_eq_true.
      subst c'. simpl. set_solver.
  - rewrite Hlen. simpl. rewrite (ak_update_id _ _ _ Hc).
    rewrite (ak_IsSubSetOf_run _ _ _ _ _ Hc Ho). do 2 f_equal.
    apply ak_len_0 in Hlen. subst co.
    apply eq_true_iff_eq. rewrite ak_forallb_has, Nat.eqb_eq, ak_len_0.
    simpl. split.
    + intros [Hk Hl]. apply ak_entries_eq; simpl; [set_solver | done].
    + by intros ->.
Qed.

(** X18. A second [Intersect] or [Diff] with the same [other] (the receiver
    itself included) returns the store the first one left.  A second [Union]
    with another set does so exactly when that set has no element that is
    not equal to itself; in general it enters those elements once more, and
    [Size] grows by their number. *)
Theorem inplace_ops_twice_any_key h l o c co :
  h !! l = Some c → deref h o = Some co →
  (∃ h', Intersect (SetAt l) o h = Some (SetAt l, h')
       ∧ Intersect (SetAt l) o h' = Some (SetAt l, h'))
  ∧ (∃ h', Diff (SetAt l) o h = Some (SetAt l, h')
       ∧ Diff (SetAt l) o h' = Some (SetAt l, h'))
  ∧ (o ≠ SetAt l →
       ∃ h' h'' n,
         Union (SetAt l) o h = Some (SetAt l, h')
         ∧ Union (SetAt l) o h' = Some (SetAt l, h'')
         ∧ Size (SetAt l) h' = Some (n, h')
         ∧ Size (SetAt l) h'' = Some (n + size (loose co), h'')
         ∧ (loose co = ∅ → h'' = h')).
Proof.
  intros Hc Ho.
  assert (∀ c', deref (<[l := c']> h) o
                = Some (if decide (o = SetAt l) then c' else co)) as Ho'.
  { intros c'. case_decide as Heq.
    - subst o. apply ak_deref_insert_eq.
    - by rewrite ak_deref_insert_ne. }
  assert (o = SetAt l → co = c) as Halias.
  { intros ->. simpl in Ho. congruence. }
  split_and!.
  - eexists. split; [by apply (ak_Intersect_run _ _ _ c co) |].
    cbn [update].
    rewrite (ak_Intersect_run _ _ o _ _ (ak_deref_insert_eq _ _ _) (Ho' _)).
    cbn [update]. rewrite insert_insert_eq. do 3 f_equal.
    destruct (decide (o = SetAt l)) as [Heq | Hne].
    + pose proof (Halias Heq) as ->.
      assert (Entries (keys c ∩ keys c) (loose c) = c) as Hcc
        by (apply ak_entries_eq; simpl; [set_solver | done]).
      destruct (len c =? 0) eqn:He; by rewrite ?Hcc, ?He.
    + destruct (len co =? 0); [done |].
      apply ak_entries_eq; simpl; [set_solver | done].
  - eexists. split; [by apply (ak_Diff_run _ _ _ c co) |]. cbn [update].
    rewrite (ak_Diff_run _ _ o _ _ (ak_deref_insert_eq _ _ _) (Ho' _)).
    cbn [update]. rewrite insert_insert_eq. do 3 f_equal.
    apply ak_entries_eq; simpl; [| done]. case_decide; simpl; set_solver.
  - intros Hne.
    set (c' := Entries (keys c ∪ keys co) (loose c ⊎ loose co)).
    set (c'' := Entries (keys c' ∪ keys co) (loose c' ⊎ loose co)).
    exists (<[l := c']> h), (<[l := c'']> h), (len c'). split_and!.
    + by apply ak_Union_run.
    + rewrite (ak_Union_run _ _ o c' co); try done.
      * by rewrite insert_insert_eq.
      * apply lookup_insert_eq.
      * by rewrite ak_deref_insert_ne.
    + by rewrite (ak_Size_run _ _ _ (ak_deref_insert_eq _ _ _)).
    + rewrite (ak_Size_run _ _ _ (ak_deref_insert_eq _ _ _)).
      do 2 f_equal. unfold len. subst c'' c'. simpl.
      rewrite !gmultiset_size_disj_union.
      assert (keys c ∪ keys co ∪ keys co = keys c ∪ keys co) as ->
        by set_solver. lia.
    + intros Hl. f_equal. subst c'' c'. apply ak_entries_eq; simpl.
      * set_solver.
      * rewrite Hl. multiset_solver.
Qed.

End Facts.
End AnyKey_facts.

(** ** Facts about the slice helpers *)

Section Slices_facts.
Context {T U V : Type} {U_zero : Inhabited U} {V_zero : Inhabited V}.

Implicit Types (s : @slice T) (vs : list T) (a : T).

Lemma gslice_Map_loop_run {A B} `{Inhabited B} (f : A → B) (vs : list A) :
  ∀ i (r : list B),
  i + length vs ≤ length r →
  gslice_Map_loop f vs i r
  = Some (take i r ++ (f <$> vs) ++ drop (i + length vs) r).
Proof.
  induction vs as [|v vs IH]; intros i r Hlen; cbn [gslice_Map_loop length] in *.
  - by rewrite Nat.add_0_r, app_nil_l, take_drop.
  - unfold index_assign. rewrite decide_True by lia. simpl.
    rewrite IH by (rewrite length_insert; lia). f_equal.
    rewrite (take_S_r _ _ (f v)) by (apply list_lookup_insert_eq; lia).
    rewrite take_insert_ge by done. rewrite drop_insert_lt by lia.
    rewrite <-(assoc_L (++)). simpl. by rewrite Nat.add_succ_r.
Qed.

Lemma gslice_Map_run {A B} `{Inhabited B} (f : A → B) (s : @slice A) :
  gslice_Map s f = Some (Some (f <$> slice_items s)).
Proof.
  unfold gslice_Map, slice_len.
  rewrite gslice_Map_loop_run by (rewrite length_replicate; lia). simpl.
  rewrite drop_ge by (rewrite length_replicate; lia).
  by rewrite app_nil_r.
Qed.

Lemma gslice_Filter_loop_run (f : T → bool) vs : ∀ r,
  gslice_Filter_loop f vs r = r ++ List.filter f vs.
Proof.
  induction vs as [|v vs IH]; intros r; simpl.
  - by rewrite app_nil_r.
  - rewrite IH. destruct (f v); [| done]. by rewrite <-(assoc_L (++)).
Qed.

Lemma slices_AllThatSatisfies_loop_run (f : T → bool) vs : ∀ r,
  slices_AllThatSatisfies_loop f vs r = r ++ List.filter f vs.
Proof.
  induction vs as [|v vs IH]; intros r; simpl.
  - by rewrite app_nil_r.
  - rewrite IH. destruct (f v); [| done]. by rewrite <-(assoc_L (++)).
Qed.

Lemma slices_AllThatSatisfies_run (f : T → bool) s :
  slices_AllThatSatisfies s f = Some (List.filter f (slice_items s)).
Proof.
  unfold slices_AllThatSatisfies. destruct s as [[|v vs]|]; try done.
  cbn [slice_is_nil slice_len orb]. unfold slice_items. simpl default.
  cbn [length Nat.eqb]. by rewrite slices_AllThatSatisfies_loop_run.
Qed.

Lemma slices_Has_loop_true (eqb : T → T → bool) vs a :
  slices_Has_loop eqb vs a = true ↔ ∃ v, v ∈ vs ∧ eqb v a = true.
Proof.
  induction vs as [|v vs IH]; simpl.
  - split; [done |]. intros (w & Hw & _). by apply not_elem_of_nil in Hw.
  - setoid_rewrite elem_of_cons. destruct (eqb v a) eqn:Hv.
    + naive_solver.
    + rewrite IH. split.
      * intros (w & Hw & Heq). eauto.
      * intros (w & [-> | Hw] & Heq); [congruence | eauto].
Qed.

(** X19. [gslice.Map] never indexes out of range: it returns a non-nil slice
    as long as its input (the empty slice for a nil input) whose [i]-th cell
    is [f] of the [i]-th cell of the input. *)
Theorem gslice_Map_spec (f : T → U) s :
  ∃ r, gslice_Map s f = Some (Some r)
     ∧ length r = slice_len s
     ∧ ∀ i, r !! i = f <$> (slice_items s !! i).
Proof.
  exists (f <$> slice_items s). split_and!.
  - apply gslice_Map_run.
  - apply length_fmap.
  - intros i. apply list_lookup_fmap.
Qed.

(** X20. Mapping [f] and then [g] is mapping their composition. *)
Theorem gslice_Map_compose (f : T → U) (g : U → V) s :
  (r ← gslice_Map s f; gslice_Map r g) = gslice_Map s (g ∘ f).
Proof.
  rewrite !gslice_Map_run. simpl. rewrite gslice_Map_run.
  unfold slice_items. simpl. by rewrite <-list_fmap_compose.
Qed.

(** X21. [gslice.Filter] and [slices.AllThatSatisfies] are the same function:
    on every slice, nil included, both return the non-nil slice of the
    entries that satisfy [f], in their order. *)
Theorem Filter_AllThatSatisfies (f : T → bool) s :
  gslice_Filter s f = Some (List.filter f (slice_items s))
  ∧ slices_AllThatSatisfies s f = gslice_Filter s f.
Proof.
  assert (gslice_Filter s f = Some (List.filter f (slice_items s))) as Hf.
  { unfold gslice_Filter. by rewrite gslice_Filter_loop_run. }
  split; [done |]. by rewrite Hf, slices_AllThatSatisfies_run.
Qed.

(** X22. [slices.Has] answers true exactly when some entry of the slice is
    [==] to the element, whatever [==] is on the element type (so never for
    an element that is [==] to nothing, itself included).  On the result of
    [AllThatSatisfies] it answers true exactly when some entry of the input
    satisfies [f] and is [==] to the element. *)
Theorem slices_Has_spec (eqb : T → T → bool) (f : T → bool) s a :
  (slices_Has eqb s a = true ↔ ∃ v, v ∈ slice_items s ∧ eqb v a = true)
  ∧ (slices_Has eqb (slices_AllThatSatisfies s f) a = true
     ↔ ∃ v, v ∈ slice_items s ∧ f v = true ∧ eqb v a = true).
Proof.
  split; [apply slices_Has_loop_true |].
  rewrite slices_AllThatSatisfies_run. unfold slices_Has.
  unfold slice_items at 1. simpl default.
  rewrite slices_Has_loop_true.
  setoid_rewrite list_elem_of_In. setoid_rewrite filter_In. naive_solver.
Qed.

End Slices_facts.

(** ** Facts about the character classes *)

Section Str_facts.
Variables IsNumber IsLetter : Z → bool.

(** X23. Each classifier is true exactly when every rune of the string is in
    its class; on the empty string all three are true. *)
Theorem str_classes_spec (v : list Z) :
  (str_IsAlphaNumeric IsNumber IsLetter v = true
     ↔ ∀ c, c ∈ v → IsNumber c = true ∨ IsLetter c = true)
  ∧ (str_IsAlpha IsLetter v = true ↔ ∀ c, c ∈ v → IsLetter c = true)
  ∧ (str_IsNumeric IsNumber v = true ↔ ∀ c, c ∈ v → IsNumber c = true).
Proof.
  split_and!; induction v as [|char v IH]; simpl;
    try (split; [intros _ c Hc; by apply not_elem_of_nil in Hc | done]);
    setoid_rewrite elem_of_cons.
  - destruct (IsNumber char) eqn:Hn, (IsLetter char) eqn:Hl; simpl;
      rewrite ?IH; try naive_solver.
    split; [done |]. intros Hv. destruct (Hv char); [by left | congruence..].
  - destruct (IsLetter char) eqn:Hl; simpl; rewrite ?IH; naive_solver.
  - destruct (IsNumber char) eqn:Hn; simpl; rewrite ?IH; naive_solver.
Qed.

(** X24. A string that [IsAlpha] accepts, and a string that [IsNumeric]
    accepts, is accepted by [IsAlphaNumeric]. *)
Theorem str_classes_incl (v : list Z) :
  (str_IsAlpha IsLetter v = true → str_IsAlphaNumeric IsNumber IsLetter v = true)
  ∧ (str_IsNumeric IsNumber v = true
       → str_IsAlphaNumeric IsNumber IsLetter v = true).
Proof.
  split; induction v as [|char v IH]; simpl; try done.
  - destruct (IsLetter char), (IsNumber char); simpl; auto; done.
  - destruct (IsNumber char), (IsLetter char); simpl; auto; done.
Qed.

End Str_facts.

(** ** The claims on [heap_ex] *)

(** C1 on [{1,2,3}] and the slice [[2,4]]: the call fails and the store is
    the one it started from. *)
Lemma RemoveAll_atomic_witness :
  deref heap_ex (SetAt 1) = Some set123
  ∧ RemoveAll (SetAt 1) (Some [2; 4]%Z) heap_ex
    = Some (Some ErrNotAllPresent, heap_ex).
Proof.
  assert (deref heap_ex (SetAt 1) = Some set123) as Hm by reflexivity.
  split; [exact Hm |].
  destruct (RemoveAll_atomic heap_ex (SetAt 1) set123 (Some [2; 4]%Z) Hm)
    as (_ & Hmissing & _).
  apply (Hmissing [2; 4]%Z); [reflexivity | discriminate |].
  exists 4%Z. split; [set_solver | unfold set123; set_solver].
Defined.

(** C10 on [{1,2,3}] and the slice [[2,2,3]]: two distinct elements go, one
    stays. *)
Lemma RemoveAll_duplicates_witness :
  deref heap_ex (SetAt 1) = Some set123
  ∧ [2; 2; 3]%Z ≠ []
  ∧ (∀ x, x ∈ [2; 2; 3]%Z → x ∈ set123)
  ∧ ∃ h', RemoveAll (SetAt 1) (Some [2; 2; 3]%Z) heap_ex = Some (None, h')
        ∧ Size (SetAt 1) h' = Some (1, h').
Proof.
  assert (deref heap_ex (SetAt 1) = Some set123) as Hm by reflexivity.
  assert ([2; 2; 3]%Z ≠ []) as Hne by discriminate.
  assert (∀ x, x ∈ [2; 2; 3]%Z → x ∈ set123) as Hall
    by (unfold set123; set_solver).
  split_and!; try done.
  destruct (RemoveAll_duplicates heap_ex (SetAt 1) set123 [2; 2; 3]%Z
              Hm Hne Hall) as (h' & Hrun & Hsize & _).
  exists h'. split; [exact Hrun | exact Hsize].
Defined.

(** C6: removing 5 from [{1,2}] fails, removing 2 succeeds. *)
Lemma Remove_spec_witness :
  deref heap_ex (SetAt 2) = Some set12
  ∧ Remove (SetAt 2) 5%Z heap_ex = Some (Some (ErrNotFound 5%Z), heap_ex)
  ∧ ∃ h', Remove (SetAt 2) 2%Z heap_ex = Some (None, h')
        ∧ Has (SetAt 2) 2%Z h' = Some (false, h').
Proof.
  assert (deref heap_ex (SetAt 2) = Some set12) as Hm by reflexivity.
  split; [exact Hm |]. split.
  - destruct (Remove_spec heap_ex (SetAt 2) set12 5%Z Hm)
      as (err & h' & Hrun & Herr & _ & Hsame & _).
    assert (5%Z ∉ set12) as Hout by (unfold set12; set_solver).
    rewrite Hrun. by rewrite (proj2 Herr Hout), (Hsame Hout).
  - destruct (Remove_spec heap_ex (SetAt 2) set12 2%Z Hm)
      as (err & h' & Hrun & _ & Herr & _ & Hin).
    assert (2%Z ∈ set12) as Hmem by (unfold set12; set_solver).
    exists h'. rewrite Hrun, (proj2 Herr Hmem). split; [done |].
    by destruct (Hin Hmem) as (Hhas & _).
Defined.

(** C4 on [S = {1,2}] and [O = {2,3}]. *)
Lemma New_ops_leave_operands_witness :
  deref heap_ex (SetAt 2) = Some set12
  ∧ deref heap_ex (SetAt 3) = Some set23
  ∧ ∃ c h', NewUnion (RO := elements_order) (SetAt 2) (SetAt 3) heap_ex
            = Some (SetAt c, h')
          ∧ deref h' (SetAt 2) = Some set12
          ∧ deref h' (SetAt 3) = Some set23
          ∧ deref h' (SetAt c) = Some (set12 ∪ set23).
Proof.
  assert (deref heap_ex (SetAt 2) = Some set12) as Hm by reflexivity.
  assert (deref heap_ex (SetAt 3) = Some set23) as Ho by reflexivity.
  split_and!; try done.
  destruct (New_ops_leave_operands (RO := elements_order) heap_ex (SetAt 2)
              (SetAt 3) set12 set23 Hm Ho)
    as ((c & h' & Hrun & _ & _ & _ & Hs & Hother & Hres) & _).
  by exists c, h'.
Defined.

(** C7: a copy of [{1,2,3}]. *)
Lemma Copy_independent_witness :
  deref heap_ex (SetAt 1) = Some set123
  ∧ ∃ c h', Copy (RO := elements_order) (SetAt 1) heap_ex = Some (SetAt c, h')
          ∧ SetAt c ≠ SetAt 1
          ∧ deref h' (SetAt c) = Some set123
          ∧ ∃ h2, Add (SetAt c) 9%Z h' = Some (SetAt c, h2)
                ∧ deref h2 (SetAt 1) = Some set123.
Proof.
  assert (deref heap_ex (SetAt 1) = Some set123) as Hm by reflexivity.
  split; [exact Hm |].
  destruct (Copy_independent (RO := elements_order) heap_ex (SetAt 1) set123
              Hm)
    as (c & h' & Hrun & _ & Hne & Hc & Hs & _ & _ & _ & Hlater).
  exists c, h'. split_and!; try done.
  by destruct (Hlater h' set123 set123 9%Z Hs Hc) as (Hadd & _).
Defined.

(** C8: the round trip of [{1,2,3}]. *)
Lemma ToSlice_roundtrip_witness :
  deref heap_ex (SetAt 1) = Some set123
  ∧ ∃ sl n h',
      ToSlice (RO := elements_order) (SetAt 1) heap_ex = Some (sl, heap_ex)
      ∧ bind NewSet (λ ns, AddAll ns sl) heap_ex = Some (SetAt n, h')
      ∧ Size (SetAt n) h' = Some (3, h')
      ∧ Size (SetAt 1) h' = Some (3, h').
Proof.
  assert (deref heap_ex (SetAt 1) = Some set123) as Hm by reflexivity.
  split; [exact Hm |].
  destruct (ToSlice_roundtrip (RO := elements_order) heap_ex (SetAt 1) set123
              Hm)
    as (sl & n & h' & Hslice & _ & Hbuild & _ & _ & Hsize & Hsize' & _).
  by exists sl, n, h'.
Defined.

(** C9: [{1,2,3}] is a superset of [{2,3}] and of the nil set, and not a
    subset of [{2,3}]. *)
Lemma IsSuperSetOf_IsSubSetOf_spec_witness :
  deref heap_ex (SetAt 1) = Some set123
  ∧ deref heap_ex (SetAt 3) = Some set23
  ∧ IsSuperSetOf (RO := elements_order) (SetAt 1) (SetAt 3) heap_ex
    = Some (true, heap_ex)
  ∧ IsSubSetOf (RO := elements_order) (SetAt 1) (SetAt 3) heap_ex
    = Some (false, heap_ex).
Proof.
  assert (deref heap_ex (SetAt 1) = Some set123) as Hm by reflexivity.
  assert (deref heap_ex (SetAt 3) = Some set23) as Ho by reflexivity.
  destruct (IsSuperSetOf_IsSubSetOf_spec (RO := elements_order) heap_ex
              (SetAt 1) (SetAt 3) set123 set23 Hm Ho)
    as ((b & Hsup & _ & Hb) & (b' & Hsub & _ & Hb')).
  split; [exact Hm |]. split; [exact Ho |]. split.
  - rewrite Hsup. do 2 f_equal. apply Hb. unfold set123, set23. set_solver.
  - rewrite Hsub. do 2 f_equal. destruct b'; [| done].
    exfalso. assert (1%Z ∈ set23) as Hin
      by (apply Hb'; [done | unfold set123; set_solver]).
    unfold set23 in Hin. set_solver.
Defined.

(** ** The further properties on [heap_ex] *)

Lemma Union_spec_witness :
  heap_ex !! 2%positive = Some set12
  ∧ deref heap_ex (SetAt 3) = Some set23
  ∧ ∃ h', Union (RO := elements_order) (SetAt 2) (SetAt 3) heap_ex
          = Some (SetAt 2, h')
        ∧ h' !! 2%positive = Some (set12 ∪ set23).
Proof.
  assert (heap_ex !! 2%positive = Some set12) as Hm by reflexivity.
  assert (deref heap_ex (SetAt 3) = Some set23) as Ho by reflexivity.
  split; [exact Hm |]. split; [exact Ho |].
  destruct (Union_spec (RO := elements_order) heap_ex 2 (SetAt 3)
              set12 set23 Hm Ho) as (h' & Hrun & Hset & _).
  exists h'. split; [exact Hrun | exact Hset].
Defined.

Lemma Union_nil_receiver_witness :
  deref heap_ex (SetAt 3) = Some set23
  ∧ Union (RO := elements_order) NilSet (SetAt 3) heap_ex = None.
Proof.
  assert (deref heap_ex (SetAt 3) = Some set23) as Ho by reflexivity.
  split; [exact Ho |].
  destruct (Union_nil_receiver (RO := elements_order) heap_ex (SetAt 3)
              set23 Ho) as (_ & Hpanic).
  apply Hpanic. unfold set23. set_solver.
Defined.

Lemma MustRemove_spec_witness :
  deref heap_ex (SetAt 2) = Some set12
  ∧ MustRemove (SetAt 2) 5%Z heap_ex = None.
Proof.
  assert (deref heap_ex (SetAt 2) = Some set12) as Hm by reflexivity.
  split; [exact Hm |].
  destruct (MustRemove_spec heap_ex (SetAt 2) set12 5%Z Hm) as (_ & Hpanic).
  apply Hpanic. unfold set12. set_solver.
Defined.

Lemma MustRemoveAll_spec_witness :
  deref heap_ex (SetAt 1) = Some set123
  ∧ MustRemoveAll (SetAt 1) (Some [2; 4]%Z) heap_ex = None.
Proof.
  assert (deref heap_ex (SetAt 1) = Some set123) as Hm by reflexivity.
  split; [exact Hm |].
  destruct (MustRemoveAll_spec heap_ex (SetAt 1) set123 (Some [2; 4]%Z) Hm)
    as (_ & Hpanic & _).
  apply Hpanic. exists 4%Z. split; [simpl; set_solver |].
  unfold set123. set_solver.
Defined.

Lemma HasAllOf_spec_witness :
  deref heap_ex (SetAt 1) = Some set123
  ∧ HasAllOf (SetAt 1) (Some [2; 4]%Z) heap_ex = Some (false, heap_ex).
Proof.
  assert (deref heap_ex (SetAt 1) = Some set123) as Hm by reflexivity.
  split; [exact Hm |].
  destruct (HasAllOf_spec heap_ex (SetAt 1) set123 (Some [2; 4]%Z) Hm)
    as (b & Hrun & Hb & _).
  rewrite Hrun. do 2 f_equal. destruct b; [| done]. exfalso.
  assert (4%Z ∈ set123) as Hin by (apply Hb; [done | simpl; set_solver]).
  unfold set123 in Hin. set_solver.
Defined.

Lemma AddAll_spec_witness :
  heap_ex !! 2%positive = Some set12
  ∧ ∃ h', AddAll (SetAt 2) (Some [2; 3; 3]%Z) heap_ex = Some (SetAt 2, h')
        ∧ Has (SetAt 2) 3%Z h' = Some (true, h').
Proof.
  assert (heap_ex !! 2%positive = Some set12) as Hm by reflexivity.
  split; [exact Hm |].
  destruct (AddAll_spec heap_ex 2 set12 (Some [2; 3; 3]%Z) Hm)
    as (h' & Hrun & Hhas & _).
  exists h'. split; [exact Hrun |]. rewrite (Hhas 3%Z). reflexivity.
Defined.

Lemma ToSlice_spec_witness :
  deref heap_ex (SetAt 1) = Some set123
  ∧ ∃ vs, ToSlice (RO := elements_order) (SetAt 1) heap_ex
          = Some (Some vs, heap_ex)
        ∧ length vs = 3.
Proof.
  assert (deref heap_ex (SetAt 1) = Some set123) as Hm by reflexivity.
  split; [exact Hm |].
  destruct (ToSlice_spec (RO := elements_order) heap_ex (SetAt 1) set123 Hm)
    as (vs & Hrun & _ & Hlen & _).
  exists vs. split; [exact Hrun | exact Hlen].
Defined.

Lemma NewDiff_Copy_Diff_witness :
  deref heap_ex (SetAt 1) = Some set123
  ∧ deref heap_ex (SetAt 3) = Some set23
  ∧ NewDiff (RO := elements_order) (SetAt 1) (SetAt 3) heap_ex
    = bind (Copy (RO := elements_order) (SetAt 1))
           (λ c, Diff (RO := elements_order) c (SetAt 3)) heap_ex.
Proof.
  assert (deref heap_ex (SetAt 1) = Some set123) as Hm by reflexivity.
  assert (deref heap_ex (SetAt 3) = Some set23) as Ho by reflexivity.
  split; [exact Hm |]. split; [exact Ho |].
  exact (NewDiff_Copy_Diff (RO := elements_order) heap_ex (SetAt 1) (SetAt 3)
           set123 set23 Hm Ho).
Defined.

Lemma IsSubSetOf_IsSuperSetOf_dual_witness :
  deref heap_ex (SetAt 3) = Some set23
  ∧ deref heap_ex (SetAt 1) = Some set123
  ∧ IsSubSetOf (RO := elements_order) (SetAt 3) (SetAt 1) heap_ex
    = IsSuperSetOf (RO := elements_order) (SetAt 1) (SetAt 3) heap_ex.
Proof.
  assert (deref heap_ex (SetAt 3) = Some set23) as Hm by reflexivity.
  assert (deref heap_ex (SetAt 1) = Some set123) as Ho by reflexivity.
  split; [exact Hm |]. split; [exact Ho |].
  exact (IsSubSetOf_IsSuperSetOf_dual (RO := elements_order) heap_ex
           (SetAt 3) (SetAt 1) set23 set123 Hm Ho).
Defined.


(** ** The claims on [heap_nan] *)

(** C5 as stated fails on a key that is not equal to itself: after
    [Add(NaN)] on [{1}], [Has(NaN)] is false, and a second [Add(NaN)] takes
    [Size] from 2 to 3.  It also fails on the nil set, where [Add] panics. *)
Lemma Add_NaN_counterexample :
  (∃ h' h'',
     AnyKey.Add (SetAt 2) NaN heap_nan = Some (SetAt 2, h')
     ∧ AnyKey.Has (SetAt 2) NaN h' = Some (false, h')
     ∧ AnyKey.Size (SetAt 2) h' = Some (2, h')
     ∧ AnyKey.Add (SetAt 2) NaN h' = Some (SetAt 2, h'')
     ∧ AnyKey.Size (SetAt 2) h'' = Some (3, h''))
  ∧ AnyKey.Add NilSet (inl 1%Z) heap_nan = None.
Proof.
  split; [| reflexivity].
  eexists _, _. split; [reflexivity |]. split; [reflexivity |].
  split; [vm_compute; reflexivity |]. split; [reflexivity |].
  vm_compute. reflexivity.
Qed.

Lemma Add_any_key_witness :
  heap_nan !! 2%positive = Some set1
  ∧ ∃ h', AnyKey.Add (SetAt 2) (inl 7%Z) heap_nan = Some (SetAt 2, h')
        ∧ AnyKey.Has (SetAt 2) (inl 7%Z) h' = Some (true, h')
        ∧ AnyKey.Size (SetAt 2) h' = Some (2, h').
Proof.
  assert (heap_nan !! 2%positive = Some set1) as Hc by reflexivity.
  split; [exact Hc |].
  destruct (AnyKey_facts.Add_any_key heap_nan 2 set1 (inl 7%Z) Hc)
    as ((h' & Hadd & Hself & _) & _).
  destruct (Hself eq_refl) as (Hhas & Hsize & _).
  exists h'. split_and!; [exact Hadd | exact Hhas | exact Hsize].
Defined.

(** C2 as stated fails on a set with an element that is not equal to itself:
    [{1, NaN}.Intersect({1})] leaves [{1, NaN}], though NaN is not an element
    of [{1}]. *)
Lemma Intersect_NaN_counterexample :
  ∃ h',
    AnyKey.Intersect (RO := AnyKey.listing_order) (SetAt 1) (SetAt 2) heap_nan
    = Some (SetAt 1, h')
    ∧ AnyKey.ToSlice (RO := AnyKey.listing_order) (SetAt 2) heap_nan
      = Some (Some [inl 1%Z], heap_nan)
    ∧ AnyKey.Has (SetAt 2) NaN heap_nan = Some (false, heap_nan)
    ∧ AnyKey.ToSlice (RO := AnyKey.listing_order) (SetAt 1) h'
      = Some (Some [inl 1%Z; NaN], h')
    ∧ AnyKey.Size (SetAt 1) h' = Some (2, h').
Proof.
  eexists. split; [vm_compute; reflexivity |].
  split_and!; vm_compute; reflexivity.
Qed.

Lemma Intersect_any_key_witness :
  AnyKey.deref heap_nan (SetAt 1) = Some set1NaN
  ∧ AnyKey.deref heap_nan (SetAt 2) = Some set1
  ∧ ∃ h',
      AnyKey.Intersect (RO := AnyKey.listing_order) (SetAt 1) (SetAt 2)
        heap_nan = Some (SetAt 1, h')
      ∧ AnyKey.Has (SetAt 1) (inl 1%Z) h' = Some (true, h')
      ∧ AnyKey.Has (SetAt 1) NaN h' = Some (false, h').
Proof.
  assert (AnyKey.deref heap_nan (SetAt 1) = Some set1NaN) as Hc
    by reflexivity.
  assert (AnyKey.deref heap_nan (SetAt 2) = Some set1) as Ho by reflexivity.
  split; [exact Hc |]. split; [exact Ho |].
  destruct (AnyKey_facts.Intersect_any_key (RO := AnyKey.listing_order)
              heap_nan (SetAt 1) (SetAt 2) set1NaN set1 Hc Ho) as (_ & Hcut).
  destruct Hcut as (h' & Hrun & _ & Hhas & _); [by vm_compute |].
  exists h'. split; [exact Hrun |]. by rewrite !Hhas.
Defined.

(** C3 as stated fails in the same way: [{1, NaN}.NewIntersect({1})] is a new
    set [{1, NaN}]. *)
Lemma NewIntersect_NaN_counterexample :
  ∃ l h',
    AnyKey.NewIntersect (RO := AnyKey.listing_order) (SetAt 1) (SetAt 2)
      heap_nan = Some (SetAt l, h')
    ∧ AnyKey.ToSlice (RO := AnyKey.listing_order) (SetAt 2) heap_nan
      = Some (Some [inl 1%Z], heap_nan)
    ∧ AnyKey.Has (SetAt 2) NaN heap_nan = Some (false, heap_nan)
    ∧ AnyKey.ToSlice (RO := AnyKey.listing_order) (SetAt l) h'
      = Some (Some [inl 1%Z; NaN], h')
    ∧ AnyKey.Size (SetAt l) h' = Some (2, h').
Proof.
  eexists _, _. split; [vm_compute; reflexivity |].
  split_and!; vm_compute; reflexivity.
Qed.

Lemma NewIntersect_any_key_witness :
  AnyKey.deref heap_nan (SetAt 1) = Some set1NaN
  ∧ AnyKey.deref heap_nan (SetAt 2) = Some set1
  ∧ ∃ l h',
      AnyKey.NewIntersect (RO := AnyKey.listing_order) (SetAt 1) (SetAt 2)
        heap_nan = Some (SetAt l, h')
      ∧ heap_nan !! l = None
      ∧ AnyKey.deref h' (SetAt 1) = Some set1NaN
      ∧ AnyKey.Has (SetAt l) (inl 1%Z) h' = Some (true, h').
Proof.
  assert (AnyKey.deref heap_nan (SetAt 1) = Some set1NaN) as Hc
    by reflexivity.
  assert (AnyKey.deref heap_nan (SetAt 2) = Some set1) as Ho by reflexivity.
  split; [exact Hc |]. split; [exact Ho |].
  destruct (AnyKey_facts.NewIntersect_any_key (RO := AnyKey.listing_order)
              heap_nan (SetAt 1) (SetAt 2) set1NaN set1 Hc Ho)
    as (l & h' & Hrun & Hfresh & _ & _ & Hs & _ & _ & Hcut).
  destruct Hcut as (_ & Hhas); [by vm_compute |].
  exists l, h'. split; [exact Hrun |]. split; [exact Hfresh |].
  split; [exact Hs |]. by rewrite Hhas.
Defined.

(** ** The further properties on [heap_nan] *)

Lemma Diff_any_key_witness :
  AnyKey.deref heap_nan (SetAt 1) = Some set1NaN
  ∧ ∃ h', AnyKey.Diff (RO := AnyKey.listing_order) (SetAt 1) (SetAt 1)
            heap_nan = Some (SetAt 1, h')
        ∧ AnyKey.deref h' (SetAt 1)
          = Some (AnyKey.Entries ({[1%Z]} ∖ {[1%Z]}) {[+ () +]}).
Proof.
  assert (AnyKey.deref heap_nan (SetAt 1) = Some set1NaN) as Hc
    by reflexivity.
  split; [exact Hc |].
  destruct (AnyKey_facts.Diff_any_key (RO := AnyKey.listing_order)
              heap_nan (SetAt 1) (SetAt 1) set1NaN set1NaN Hc Hc)
    as (h' & Hrun & Hset & _).
  exists h'. split; [exact Hrun | exact Hset].
Defined.

Lemma Clear_any_key_witness :
  AnyKey.deref heap_nan (SetAt 1) = Some set1NaN
  ∧ ∃ h', AnyKey.Clear (RO := AnyKey.listing_order) (SetAt 1) heap_nan
          = Some (SetAt 1, h')
        ∧ AnyKey.Size (SetAt 1) h' = Some (1, h').
Proof.
  assert (AnyKey.deref heap_nan (SetAt 1) = Some set1NaN) as Hc
    by reflexivity.
  split; [exact Hc |].
  destruct (AnyKey_facts.Clear_any_key (RO := AnyKey.listing_order)
              heap_nan (SetAt 1) set1NaN Hc) as (h' & Hrun & _ & Hsize & _).
  exists h'. split; [exact Hrun | exact Hsize].
Defined.


Lemma RemoveAll_ToSlice_any_key_witness :
  AnyKey.deref heap_nan (SetAt 1) = Some set1NaN
  ∧ ∃ sl, AnyKey.ToSlice (RO := AnyKey.listing_order) (SetAt 1) heap_nan
          = Some (sl, heap_nan)
        ∧ AnyKey.RemoveAll (SetAt 1) sl heap_nan
          = Some (Some ErrNotAllPresent, heap_nan).
Proof.
  assert (AnyKey.deref heap_nan (SetAt 1) = Some set1NaN) as Hc
    by reflexivity.
  split; [exact Hc |].
  destruct (AnyKey_facts.RemoveAll_ToSlice_any_key
              (RO := AnyKey.listing_order) heap_nan (SetAt 1) set1NaN Hc)
    as (sl & Hslice & _ & Hfail & _).
  exists sl. split; [exact Hslice |]. apply Hfail.
  apply gmultiset_non_empty_singleton.
Defined.

Lemma Union_IsSuperSetOf_any_key_witness :
  heap_nan !! 2%positive = Some set1
  ∧ AnyKey.deref heap_nan (SetAt 1) = Some set1NaN
  ∧ SetAt 1 ≠ SetAt 2
  ∧ ∃ h', AnyKey.Union (RO := AnyKey.listing_order) (SetAt 2) (SetAt 1)
            heap_nan = Some (SetAt 2, h')
        ∧ AnyKey.IsSuperSetOf (RO := AnyKey.listing_order) (SetAt 2)
            (SetAt 1) h' = Some (false, h').
Proof.
  assert (heap_nan !! 2%positive = Some set1) as Hc by reflexivity.
  assert (AnyKey.deref heap_nan (SetAt 1) = Some set1NaN) as Ho
    by reflexivity.
  assert (SetAt 1 ≠ SetAt 2) as Hne by discriminate.
  split; [exact Hc |]. split; [exact Ho |]. split; [exact Hne |].
  destruct (AnyKey_facts.Union_IsSuperSetOf_any_key
              (RO := AnyKey.listing_order) heap_nan 2 (SetAt 1) set1
              set1NaN Hc Ho Hne) as (h' & Hrun & Hsup & _).
  exists h'. split; [exact Hrun |]. rewrite Hsup. reflexivity.
Defined.

Lemma Intersect_IsSubSetOf_any_key_witness :
  AnyKey.deref heap_nan (SetAt 1) = Some set1NaN
  ∧ AnyKey.deref heap_nan (SetAt 2) = Some set1
  ∧ ∃ h', AnyKey.Intersect (RO := AnyKey.listing_order) (SetAt 1) (SetAt 2)
            heap_nan = Some (SetAt 1, h')
        ∧ AnyKey.IsSubSetOf (RO := AnyKey.listing_order) (SetAt 1) (SetAt 2)
            h' = Some (false, h').
Proof.
  assert (AnyKey.deref heap_nan (SetAt 1) = Some set1NaN) as Hc
    by reflexivity.
  assert (AnyKey.deref heap_nan (SetAt 2) = Some set1) as Ho by reflexivity.
  split; [exact Hc |]. split; [exact Ho |].
  destruct (AnyKey_facts.Intersect_IsSubSetOf_any_key
              (RO := AnyKey.listing_order) heap_nan (SetAt 1) (SetAt 2)
              set1NaN set1 Hc Ho) as (h' & Hrun & Hsub & _).
  exists h'. split; [exact Hrun |]. rewrite Hsub by (by vm_compute).
  reflexivity.
Defined.

Lemma inplace_ops_twice_any_key_witness :
  heap_nan !! 1%positive = Some set1NaN
  ∧ AnyKey.deref heap_nan (SetAt 2) = Some set1
  ∧ ∃ h', AnyKey.Intersect (RO := AnyKey.listing_order) (SetAt 1) (SetAt 2)
            heap_nan = Some (SetAt 1, h')
        ∧ AnyKey.Intersect (RO := AnyKey.listing_order) (SetAt 1) (SetAt 2)
            h' = Some (SetAt 1, h').
Proof.
  assert (heap_nan !! 1%positive = Some set1NaN) as Hc by reflexivity.
  assert (AnyKey.deref heap_nan (SetAt 2) = Some set1) as Ho by reflexivity.
  split; [exact Hc |]. split; [exact Ho |].
  by destruct (AnyKey_facts.inplace_ops_twice_any_key
                 (RO := AnyKey.listing_order) heap_nan 1 (SetAt 2)
                 set1NaN set1 Hc Ho) as (Hinter & _).
Defined.
